(** * Retrospective nowcast analysis: a shallow embedding of [analyze.py]

    The development follows [doc/plos/code/analyze.py], class [Analysis]:
    the loader [load_everything], the extractors [get_truth], [get_sensor],
    [get_experiment] and [get_nowcast], the two baseline series
    [get_naive_nowcast] and [get_alternative_nowcast], the metrics
    [get_metrics] and the sensor coverage matrix [get_heatmap_data].

    Conventions of the embedding.
    - A Python [dict] from epiweek to value is a [gmap Z R]; iteration over
      it goes through [map_to_list], whose order the results never depend on.
    - An exception is a value of [exn]; a function that can raise returns
      in [res].
    - float64 arithmetic is idealised: a finite float is a real number, and
      rounding and overflow are not modelled.  The special values that numpy
      produces where the reals have no answer (the mean of an empty array, a
      division by zero) are kept, in [float64].
    - What the file imports from other packages is a parameter of the
      section that uses it: the sensor list [FluDataSource.SENSORS], the
      epiweek helpers [Epiweek.add_epiweeks] and [Epiweek.range_epiweeks],
      and the builtin conversions [int] and [float] on strings. *)

From Stdlib Require Import ZArith Reals Lra Lia String List.
From stdpp Require Import gmap strings list sorting fin_maps pretty.

Set Default Proof Using "Type".
Local Open Scope Z_scope.

(** ** Exceptions *)

Inductive exn : Set := KeyError | ValueError | IndexError.

Inductive res (A : Type) : Type :=
  | Ok (a : A)
  | Raise (e : exn).
Arguments Ok {A} a.
Arguments Raise {A} e.

#[global] Instance res_ret : MRet res := λ A, Ok.
#[global] Instance res_bind : MBind res := λ A B f m,
  match m with Ok a => f a | Raise e => Raise e end.

(** [d[key]] on a table that may not have been loaded. *)
Definition getitem {A} (table : option A) : res A :=
  match table with Some rows => Ok rows | None => Raise KeyError end.

(** ** Loaded data

    [self.data] maps a file name to its rows.  The rows of
    [data/fluview.csv] are [(week, place, value)], those of
    [data/sensors.csv] are [(week, sensor, place, value)] and those of
    [data/nc_<name>.csv] are [(week, place, value, std)]; the record gives
    the three kinds of table their row types, the week already an integer
    and the numeric columns already floats, as the loader leaves them. *)

Record Data : Type := {
  fluview : option (list (Z * string * R));
  sensors : option (list (Z * string * string * R));
  nc : gmap string (list (Z * string * R * R));
}.

#[global] Instance R_inhabited : Inhabited R := populate 0%R.

(** The keys of a dict, in iteration order. *)
Definition keys (m : gmap Z R) : list Z := (map_to_list m).*1.

(** ** Extractors *)

Definition get_truth (d : Data) (loc : string) : res (gmap Z R) :=
  rows ← getitem (fluview d);
  mret (foldl (λ result '(week, place, value),
                 if decide (place = loc) then <[week := value]> result
                 else result) ∅ rows).

Definition get_sensor (d : Data) (name loc : string) : res (gmap Z R) :=
  rows ← getitem (sensors d);
  mret (foldl (λ result '(week, sensor, place, value),
                 if decide (sensor = name ∧ place = loc)
                 then <[week := value]> result
                 else result) ∅ rows).

(** The guard of the [continue] in [get_experiment]. *)
Definition skipped (loc : string) (week : Z) : bool :=
  (bool_decide (loc = "vi"%string) && bool_decide (week < 201327)) ||
  (bool_decide (loc = "pr"%string) && bool_decide (week < 201453)).

(** The loop of [get_experiment], from a given [result]. *)
Definition experiment_loop (loc : string) (result : gmap Z R)
    (rows : list (Z * string * R * R)) : gmap Z R :=
  foldl (λ result '(week, place, value, std),
           if decide (place = loc) then
             if skipped loc week then result
             else <[week := value]> result
           else result) result rows.

(** The table of [data/nc_<name>.csv] is [nc d !! name]. *)
Definition get_experiment (d : Data) (name loc : string) : res (gmap Z R) :=
  rows ← getitem (nc d !! name);
  mret (experiment_loop loc ∅ rows).

Definition get_nowcast (d : Data) (loc : string) : res (gmap Z R) :=
  get_experiment d "vanilla" loc.

(** ** numpy on float64

    [np.array] of finite floats is a [list R]; the scalars numpy returns
    are in [float64], which adds the two infinities and NaN to the reals
    (the sign of a zero is not modelled: the zero divisors that occur are
    means of absolute values and their square roots, which are +0.0). *)

Inductive float64 : Type :=
  | Fin (x : R)
  | Inf (negative : bool)
  | NaN.

#[global] Instance R_eq_dec : EqDecision R := Req_dec_T.
#[global] Instance Rlt_rel_dec : RelDecision Rlt := Rlt_dec.
#[global] Instance Rle_rel_dec : RelDecision Rle := Rle_dec.

Definition np_sub (a b : list R) : list R := zip_with Rminus a b.
Definition np_abs (a : list R) : list R := Rabs <$> a.
Definition np_square (a : list R) : list R := (λ x, x * x)%R <$> a.

Definition np_sum (a : list R) : R := foldr Rplus 0%R a.

(** [np.mean]: NaN (and a warning, no exception) on an empty array. *)
Definition np_mean (a : list R) : float64 :=
  match a with
  | [] => NaN
  | _ => Fin (np_sum a / INR (length a))
  end.

Definition np_sqrt (x : float64) : float64 :=
  match x with
  | Fin r => if decide (r < 0)%R then NaN else Fin (sqrt r)
  | Inf false => Inf false
  | Inf true => NaN
  | NaN => NaN
  end.

(** Division of two float64 scalars: a zero divisor gives an infinity or
    NaN (and a warning), never an exception. *)
Definition np_div (x y : float64) : float64 :=
  match x, y with
  | NaN, _ | _, NaN => NaN
  | Fin a, Fin b =>
      if decide (b = 0)%R then
        if decide (a = 0)%R then NaN else Inf (bool_decide (a < 0)%R)
      else Fin (a / b)
  | Fin _, Inf _ => Fin 0
  | Inf s, Fin b => Inf (xorb s (bool_decide (b < 0)%R))
  | Inf _, Inf _ => NaN
  end.

(** [np.median] of a nonempty list of finite floats: the middle element
    of the sorted values, or the mean of the two middle ones. *)
Definition np_median (values : list R) : R :=
  let s := merge_sort Rle values in
  let k := (length s / 2)%nat in
  if Nat.even (length s)
  then ((s !!! (k - 1)%nat + s !!! k) / 2)%R
  else s !!! k.

(** ** Metrics *)

Record Metrics : Type := {
  n : nat;
  rmse : float64;
  mae : float64;
  mase : option float64;
  rmsse : option float64;
}.

(** [sorted(x.keys() & y.keys())] *)
Definition common (x y : gmap Z R) : list Z :=
  merge_sort Z.le (elements (dom x ∩ dom y)).

(** The body of [get_metrics] up to the test on [naive]; it is what the
    inner call [self.get_metrics(truth, trimmed_naive)], which passes no
    baseline, evaluates. *)
Definition get_metrics_plain (truth nowcast : gmap Z R) : Metrics :=
  let common_weeks := common truth nowcast in
  let a := (λ ew, truth !!! ew) <$> common_weeks in
  let b := (λ ew, nowcast !!! ew) <$> common_weeks in
  {| n := length common_weeks;
     rmse := np_sqrt (np_mean (np_square (np_sub a b)));
     mae := np_mean (np_abs (np_sub a b));
     mase := None;
     rmsse := None |}.

Definition trim (nowcast naive : gmap Z R) : gmap Z R :=
  let common_weeks := common nowcast naive in
  list_to_map ((λ ew, (ew, naive !!! ew)) <$> common_weeks).

Definition get_metrics (truth nowcast : gmap Z R) (naive : option (gmap Z R))
    : Metrics :=
  let result := get_metrics_plain truth nowcast in
  match naive with
  | None => result
  | Some naive =>
      let trimmed_naive := trim nowcast naive in
      let result_naive := get_metrics_plain truth trimmed_naive in
      {| n := n result;
         rmse := rmse result;
         mae := mae result;
         mase := Some (np_div (mae result) (mae result_naive));
         rmsse := Some (np_div (rmse result) (rmse result_naive)) |}
  end.

(** ** Builtins on lists *)

Definition py_min (l : list Z) : res Z :=
  match l with
  | [] => Raise ValueError
  | x :: l => Ok (foldl Z.min x l)
  end.

Definition py_max (l : list Z) : res Z :=
  match l with
  | [] => Raise ValueError
  | x :: l => Ok (foldl Z.max x l)
  end.

Definition enumerate {A} (l : list A) : list (nat * A) :=
  imap (λ i x, (i, x)) l.

Fixpoint foldlM {A B} (f : A → B → res A) (a : A) (l : list B) : res A :=
  match l with
  | [] => Ok a
  | x :: l => a' ← f a x; foldlM f a' l
  end.

(** [data[i, j] = v] on a matrix stored by rows. *)
Definition setitem2 (data : list (list R)) (i j : nat) (v : R)
    : list (list R) :=
  alter (λ row, <[j := v]> row) i data.

(** ** Loaded rows, before they are given their types

    [csv.reader] yields rows of strings; [load_everything] replaces some
    of the cells by numbers. *)

Inductive cell : Type :=
  | Str (s : string)
  | Int (z : Z)
  | Float (x : R).

(** [row[-k]], for [k] at least 1. *)
Definition getitem_neg (row : list cell) (k : nat) : res cell :=
  if decide (k ≤ length row)%nat then
    match row !! (length row - k)%nat with
    | Some c => Ok c
    | None => Raise IndexError
    end
  else Raise IndexError.

(** [row[-k] = c], after [row[-k]] has been read. *)
Definition setitem_neg (row : list cell) (k : nat) (c : cell) : list cell :=
  <[(length row - k)%nat := c]> row.

(** ** Instances of the imported helpers, for evaluating the functions

    A calendar in which every year has 52 weeks: it agrees with the
    epiweek arithmetic wherever no 53-week year is crossed. *)

Definition to_ordinal (ew : Z) : Z := (ew / 100) * 52 + (ew mod 100 - 1).
Definition from_ordinal (o : Z) : Z := (o / 52) * 100 + (o mod 52 + 1).

Definition add_epiweeks52 (ew i : Z) : Z := from_ordinal (to_ordinal ew + i).

Definition range_epiweeks52 (start stop : Z) (inclusive : bool) : list Z :=
  let len := to_ordinal stop - to_ordinal start + (if inclusive then 1 else 0) in
  (λ i, add_epiweeks52 start i) <$> seqZ 0 len.

(** Unsigned decimal numerals, on which [int] and [float] agree with the
    readers below; every other string is rejected here. *)

Fixpoint digits (s : string) (acc : Z) : option Z :=
  match s with
  | EmptyString => Some acc
  | String c s =>
      let k := Z.of_nat (Ascii.nat_of_ascii c) in
      if bool_decide (48 ≤ k ≤ 57) then digits s (10 * acc + (k - 48))
      else None
  end.

Definition int_digits (s : string) : option Z :=
  match s with
  | EmptyString => None
  | _ => digits s 0
  end.

Definition float_digits (s : string) : option R := IZR <$> int_digits s.

Section Analysis.

(** [int] and [float] applied to a string; [None] is a [ValueError]. *)
Context (int_str : string → option Z) (float_str : string → option R).

(** [FluDataSource.SENSORS], [Epiweek.add_epiweeks] and
    [Epiweek.range_epiweeks(start, stop, inclusive)]. *)
Context (SENSORS : list string).
Context (add_epiweeks : Z → Z → Z).
Context (range_epiweeks : Z → Z → bool → list Z).

(** *** The loader *)

Definition py_int (s : string) : res Z :=
  match int_str s with Some z => Ok z | None => Raise ValueError end.

Definition py_float (c : cell) : res R :=
  match c with
  | Str s =>
      match float_str s with Some x => Ok x | None => Raise ValueError end
  | Int z => Ok (IZR z)
  | Float x => Ok x
  end.

(** The body of the loop over the rows of one file. *)
Definition load_row (raw : list string) : res (list cell) :=
  match raw with
  | [] => Raise IndexError
  | s0 :: _ =>
      week ← py_int s0;
      let row := <[0%nat := Int week]> (Str <$> raw) in
      c ← getitem_neg row 1;
      x ← py_float c;
      let row := setitem_neg row 1 (Float x) in
      c ← getitem_neg row 2;
      match py_float c with
      | Ok y => Ok (setitem_neg row 2 (Float y))
      | Raise ValueError => Ok row
      | Raise e => Raise e
      end
  end.

Definition load_file (rows : list (list string)) : res (list (list cell)) :=
  foldlM (λ acc raw, row ← load_row raw; mret (acc ++ [row])) [] rows.

(** [files] lists what [glob] finds: the key of each file and the rows
    that [csv.reader] yields for it. *)
Definition load_everything (files : list (string * list (list string)))
    : res (gmap string (list (list cell))) :=
  foldlM (λ data '(key, rows),
            loaded ← load_file rows; mret (<[key := loaded]> data))
         ∅ files.

(** *** The naive baseline *)

Definition get_naive_nowcast (d : Data) (loc : string) : res (gmap Z R) :=
  let delta := 1 in
  truth ← get_truth d loc;
  mret (foldl (λ nowcast ew1,
                 let ew0 := add_epiweeks ew1 (- delta) in
                 match truth !! ew0 with
                 | Some v => <[ew1 := v]> nowcast
                 | None => nowcast
                 end) ∅ (keys truth)).

(** *** The sensor-median baseline *)

Definition get_alternative_nowcast (d : Data) (loc : string)
    : res (gmap Z R) :=
  sensors ← foldlM (λ (sensors : gmap string (gmap Z R)) sensor,
                      x ← get_sensor d sensor loc;
                      mret (<[sensor := x]> sensors)) ∅ SENSORS;
  truth ← get_truth d loc;
  mret (foldl (λ nowcast ew,
                 let values :=
                   foldl (λ values sensor,
                            match (sensors !!! sensor : gmap Z R) !! ew with
                            | Some v => values ++ [v]
                            | None => values
                            end) [] SENSORS in
                 match values with
                 | [] => nowcast
                 | _ => <[ew := np_median values]> nowcast
                 end) ∅ (keys truth)).

(** *** The sensor coverage matrix *)

Definition get_heatmap_data (d : Data)
    : res (list (list R) * list string * list Z) :=
  '(w0s, w1s) ← foldlM (λ '(w0s, w1s) sensor,
                          x ← get_sensor d sensor "nat";
                          lo ← py_min (keys x);
                          hi ← py_max (keys x);
                          mret (w0s ++ [lo], w1s ++ [hi]))
                       ([], []) SENSORS;
  w0 ← py_min w0s;
  w1 ← py_max w1s;
  let weeks := range_epiweeks w0 w1 true in
  let data := replicate (length SENSORS) (replicate (length weeks) (-1)%R) in
  data ← foldlM (λ data '(i, sensor),
                   x ← get_sensor d sensor "nat";
                   mret (foldl (λ data '(j, ew),
                                  match x !! ew with
                                  | Some v => setitem2 data i j v
                                  | None => data
                                  end) data (enumerate weeks)))
                data (enumerate SENSORS);
  mret (data, SENSORS, weeks).

End Analysis.

(** ** The preliminary truth

    [prelim] is [self.data['fluview_prelim']]; the place of a row is
    ['nat_%d' % lag], the decimal numeral of the lag after ["nat_"]. *)

Definition get_preliminary_truth (prelim : option (list (Z * string * R)))
    (lag : Z) : res (gmap Z R) :=
  rows ← getitem prelim;
  mret (foldl (λ result '(week, place, value),
                 if decide (place = "nat_" +:+ pretty lag)
                 then <[week := value]> result
                 else result) ∅ rows).

(** ** The nowcast database wrapper ([src/util/database.py])

    The wrapper drives a MySQL connection; what is modelled is the object
    and the calls it makes on the connector, the connection and the
    cursor, in their order.  [opened] says whether [connect] has set the
    attributes [cnx] and [cur]; a method that needs them and does not find
    them raises [AttributeError], here [None]. *)

Module Database.

Definition SQL_INSERT : string := "
    INSERT INTO `nowcasts`
      (`epiweek`, `location`, `value`, `std`)
    VALUES
      (%s, %s, %s, %s)
    ON DUPLICATE KEY UPDATE
      value = %s, std = %s
  ".

Inductive call : Type :=
  | Connect (user password database : string)
  | Cursor
  | Execute (operation : string) (params : list cell)
  | CursorClose
  | Commit
  | Close
  | Print (line : string).

Record NowcastDatabase : Type := {
  test_mode : bool;
  opened : bool;
  calls : list call;
}.

(** The methods called in the body of a [with] block. *)
Inductive method : Type :=
  | Insert (epiweek : Z) (location : string) (value stdev : cell)
  | SetLastUpdateTime (now : R).

(** [round] of a float: the nearest integer, the even one of two that
    are equally near. *)
Definition py_round (x : R) : Z :=
  let f := Zfloor x in
  if decide (x - IZR f < 1 / 2)%R then f
  else if decide (1 / 2 < x - IZR f)%R then f + 1
  else if Z.even f then f else f + 1.

Section Wrapper.

(** [secrets.db.epi] *)
Context (user password : string).

Definition new_instance (test_mode : bool) : NowcastDatabase :=
  {| test_mode := test_mode; opened := false; calls := [] |}.

Definition connect (db : NowcastDatabase) : NowcastDatabase :=
  {| test_mode := test_mode db;
     opened := true;
     calls := calls db ++ [Connect user password "epidata"; Cursor] |}.

Definition disconnect (db : NowcastDatabase) : option NowcastDatabase :=
  if opened db then
    Some {| test_mode := test_mode db;
            opened := true;
            calls := calls db ++
                     [CursorClose;
                      if test_mode db
                      then Print "test mode - nowcasts not saved"
                      else Commit;
                      Close] |}
  else None.

Definition insert (db : NowcastDatabase) (epiweek : Z) (location : string)
    (value stdev : cell) : option NowcastDatabase :=
  if opened db then
    let args := [Int epiweek; Str location; value; stdev; value; stdev] in
    Some {| test_mode := test_mode db;
            opened := true;
            calls := calls db ++ [Execute SQL_INSERT args] |}
  else None.

(** [now] is the reading of [time.time()]. *)
Definition set_last_update_time (db : NowcastDatabase) (now : R)
    : option NowcastDatabase :=
  let t := py_round now in
  let '(a, b) := (t / 100000, t mod 100000) in
  insert db 0 "updated" (Int a) (Int b).

Definition invoke (db : NowcastDatabase) (m : method)
    : option NowcastDatabase :=
  match m with
  | Insert epiweek location value stdev =>
      insert db epiweek location value stdev
  | SetLastUpdateTime now => set_last_update_time db now
  end.

Fixpoint invoke_all (db : NowcastDatabase) (body : list method)
    : option NowcastDatabase :=
  match body with
  | [] => Some db
  | m :: body => db ← invoke db m; invoke_all db body
  end.

(** [with NowcastDatabase.new_instance(test_mode) as db:] followed by a
    body that calls the methods of [body] and then raises or not:
    [__enter__] connects, [__exit__] disconnects in both cases and lets
    the exception through.  The result is the object after the block and
    whether an exception leaves it. *)
Definition with_database (test_mode : bool) (body : list method)
    (raises : bool) : option (NowcastDatabase * bool) :=
  db ← invoke_all (connect (new_instance test_mode)) body;
  db ← disconnect db;
  mret (db, raises).

End Wrapper.

End Database.

(** ** The report [nowcast_info] of [main]

    The branch prints five numbers; its model returns them: the number
    of national nowcasts, their first and last week, the number of
    nowcasts over all locations and the number of locations. *)

Section Main.

(** [Locations.region_list] *)
Context (region_list : list string).

Definition nowcast_info (d : Data) : res (nat * Z * Z * nat * nat) :=
  n ← get_nowcast d "nat";
  first ← py_min (keys n);
  last ← py_max (keys n);
  t ← foldlM (λ (t : nat) l,
                x ← get_nowcast d l; mret (t + size x)%nat) 0%nat region_list;
  mret (size n, first, last, t, length region_list).

End Main.

(** ** Tables for the examples *)

Definition ex_truth : gmap Z R := {[100 := 1%R; 101 := 2%R; 102 := 3%R]}.
Definition ex_estimate : gmap Z R := {[100 := 1%R; 101 := 3%R; 102 := 3%R]}.

Definition ex_nc : list (Z * string * R * R) :=
  [(201326, "vi", 1%R, 1%R); (201327, "vi", 2%R, 1%R);
   (201452, "pr", 3%R, 1%R); (201601, "nat", 4%R, 1%R)]%string.

Definition ex_data : Data := {|
  fluview := Some [(201501, "nat", 4%R); (201551, "nat", 1%R);
                   (201552, "nat", 2%R); (201601, "nat", 3%R);
                   (201601, "pa", 7%R)]%string;
  sensors := Some [(201552, "A", "nat", 2%R); (201601, "A", "nat", 5%R);
                   (201601, "B", "nat", 3%R); (201601, "B", "pa", 8%R)]%string;
  nc := {["vanilla"%string := ex_nc]} |}.

(** Two sensors whose weeks are 10 to 12 and 11 to 13. *)
Definition heat_data (vA10 vA11 vA12 vB11 vB12 vB13 : R) : Data := {|
  fluview := None;
  sensors := Some [(10, "A", "nat", vA10); (11, "A", "nat", vA11);
                   (12, "A", "nat", vA12); (11, "B", "nat", vB11);
                   (12, "B", "nat", vB12); (13, "B", "nat", vB13)]%string;
  nc := ∅ |}.

Definition heat_ex : Data := heat_data 1 2 3 4 5 6.

(** A series without error against itself, and an estimate off by one
    in its first week. *)
Definition ex_flat : gmap Z R := {[1 := 1%R; 2 := 2%R]}.
Definition ex_off : gmap Z R := {[1 := 2%R; 2 := 2%R]}.

(** What [get_sensor] returns for each name, the empty series where it
    raises. *)
Definition series_of (d : Data) (loc name : string) : gmap Z R :=
  match get_sensor d name loc with
  | Ok x => x
  | Raise _ => ∅
  end.

(** * The specification's words

    The definitions of this part follow the specification, not the code;
    the theorems below compare the code with them. *)

(** The arithmetic mean of a list of reals. *)
Definition mean (l : list R) : R := (np_sum l / INR (length l))%R.

(** [errors[w] = estimate[w] - truth[w]] for [w] in [W]. *)
Definition errors (truth estimate : gmap Z R) (W : list Z) : list R :=
  (λ w, estimate !!! w - truth !!! w)%R <$> W.

(** A series restricted to a set of epiweeks. *)
Definition restrict (X : gset Z) (m : gmap Z R) : gmap Z R :=
  filter (λ kv, kv.1 ∈ X) m.

(** [m] is the median of [values]: the middle one of the values put in
    increasing order, the arithmetic mean of the two middle ones when
    their number is even. *)
Definition is_median (values : list R) (m : R) : Prop :=
  ∃ s, s ≡ₚ values ∧ StronglySorted Rle s ∧
    let k := (length s / 2)%nat in
    if Nat.even (length s)
    then ∃ a b, s !! (k - 1)%nat = Some a ∧ s !! k = Some b ∧
                m = ((a + b) / 2)%R
    else s !! k = Some m.

(** The values at [w] of the series, in their order, that have one. *)
Definition contributions (series : list (gmap Z R)) (w : Z) : list R :=
  omap (λ x : gmap Z R, x !! w) series.

(** [w0] is the least epiweek that a series of [names] has, [w1] the
    greatest. *)
Definition least (names : list string) (series : string → gmap Z R)
    (w0 : Z) : Prop :=
  (∃ s, s ∈ names ∧ is_Some (series s !! w0)) ∧
  ∀ s w, s ∈ names → is_Some (series s !! w) → w0 ≤ w.

Definition greatest (names : list string) (series : string → gmap Z R)
    (w1 : Z) : Prop :=
  (∃ s, s ∈ names ∧ is_Some (series s !! w1)) ∧
  ∀ s w, s ∈ names → is_Some (series s !! w) → w ≤ w1.

(** * Properties *)

(** ** The extractor of model nowcasts *)

Section Extractors.

Implicit Types (result m : gmap Z R) (rows : list (Z * string * R * R)).

Lemma skipped_spec loc w :
  skipped loc w = true ↔
  (loc = "vi"%string ∧ w < 201327) ∨ (loc = "pr"%string ∧ w < 201453).
Proof.
  unfold skipped.
  rewrite orb_true_iff, !andb_true_iff, !bool_decide_eq_true. tauto.
Qed.

Lemma skipped_false loc w :
  ¬ (loc = "vi"%string ∧ w < 201327) →
  ¬ (loc = "pr"%string ∧ w < 201453) →
  skipped loc w = false.
Proof.
  intros Hvi Hpr. apply not_true_is_false. rewrite skipped_spec. tauto.
Qed.

Lemma experiment_loop_snoc loc result rows w p v s :
  experiment_loop loc result (rows ++ [(w, p, v, s)]) =
  if decide (p = loc) then
    if skipped loc w then experiment_loop loc result rows
    else <[w := v]> (experiment_loop loc result rows)
  else experiment_loop loc result rows.
Proof. unfold experiment_loop. by rewrite foldl_app. Qed.

(** A skipped week is never written. *)
Lemma experiment_loop_skipped loc rows result w :
  skipped loc w = true → experiment_loop loc result rows !! w = result !! w.
Proof.
  intros Hs.
  induction rows as [|[[[w' p] v] s] rows IH] using rev_ind; [done|].
  rewrite experiment_loop_snoc.
  case_decide; [|done]. destruct (skipped loc w') eqn:E; [done|].
  rewrite lookup_insert_ne; [done|]. intros ->. congruence.
Qed.

(** Whatever the loop writes is the value of a stored row of the
    location. *)
Lemma experiment_loop_sound loc rows result w v :
  experiment_loop loc result rows !! w = Some v →
  result !! w = Some v ∨ ∃ std, (w, loc, v, std) ∈ rows.
Proof.
  induction rows as [|[[[w' p] v'] s] rows IH] using rev_ind; [by left|].
  rewrite experiment_loop_snoc.
  assert (Hweak : experiment_loop loc result rows !! w = Some v →
     result !! w = Some v ∨
     ∃ std, (w, loc, v, std) ∈ rows ++ [(w', p, v', s)]).
  { intros H. destruct (IH H) as [?|[std ?]]; [by left|right].
    exists std. apply elem_of_app. by left. }
  case_decide as Hp; [|done]. subst p.
  destruct (skipped loc w'); [done|].
  destruct (decide (w' = w)) as [->|Hne].
  - rewrite lookup_insert_eq. intros [= ->]. right.
    exists s. apply elem_of_app. right. by apply list_elem_of_singleton.
  - by rewrite lookup_insert_ne.
Qed.

(** The last stored row of a week and location decides the value. *)
Lemma experiment_loop_last loc pre post result w v std :
  (∀ v' std', (w, loc, v', std') ∉ post) →
  skipped loc w = false →
  experiment_loop loc result (pre ++ (w, loc, v, std) :: post) !! w = Some v.
Proof.
  intros Hpost Hs.
  induction post as [|[[[w' p] v'] s] post IH] using rev_ind.
  - rewrite experiment_loop_snoc, decide_True by done.
    rewrite Hs. apply lookup_insert_eq.
  - rewrite app_comm_cons, app_assoc, experiment_loop_snoc.
    assert (IH' : experiment_loop loc result
                    (pre ++ (w, loc, v, std) :: post) !! w = Some v).
    { apply IH. intros v0 s0 Hin. apply (Hpost v0 s0).
      apply elem_of_app. by left. }
    case_decide as Hp; [|done]. subst p.
    destruct (skipped loc w'); [done|].
    rewrite lookup_insert_ne; [done|].
    intros ->. apply (Hpost v' s).
    apply elem_of_app. right. by apply list_elem_of_singleton.
Qed.

Lemma get_experiment_Ok d name loc rows :
  nc d !! name = Some rows →
  get_experiment d name loc = Ok (experiment_loop loc ∅ rows).
Proof. intros H. unfold get_experiment. by rewrite H. Qed.

Lemma get_experiment_inv d name loc m :
  get_experiment d name loc = Ok m →
  ∃ rows, nc d !! name = Some rows ∧ m = experiment_loop loc ∅ rows.
Proof.
  unfold get_experiment. destruct (nc d !! name) as [rows|]; [|done].
  intros [= <-]. by exists rows.
Qed.

(** C6.  For every model name whose table was loaded and every
    location, the series that [get_experiment] returns has no epiweek
    below 201327 for "vi" and none below 201453 for "pr"; each value it
    holds is the value of a stored row of that week and location; and
    outside the two exclusions the last stored row of a week and
    location gives the returned value exactly. *)
Theorem get_experiment_spec d name loc rows :
  nc d !! name = Some rows →
  ∃ m, get_experiment d name loc = Ok m ∧
    (∀ w, loc = "vi"%string → w < 201327 → m !! w = None) ∧
    (∀ w, loc = "pr"%string → w < 201453 → m !! w = None) ∧
    (∀ w v, m !! w = Some v → ∃ std, (w, loc, v, std) ∈ rows) ∧
    (∀ pre post w v std,
       rows = pre ++ (w, loc, v, std) :: post →
       (∀ v' std', (w, loc, v', std') ∉ post) →
       ¬ (loc = "vi"%string ∧ w < 201327) →
       ¬ (loc = "pr"%string ∧ w < 201453) →
       m !! w = Some v).
Proof.
  intros Hrows. exists (experiment_loop loc ∅ rows).
  split; [by apply get_experiment_Ok|]. repeat split.
  - intros w Hloc Hw. rewrite experiment_loop_skipped; [done|].
    apply skipped_spec. by left.
  - intros w Hloc Hw. rewrite experiment_loop_skipped; [done|].
    apply skipped_spec. by right.
  - intros w v Hm. by destruct (experiment_loop_sound _ _ _ _ _ Hm).
  - intros pre post w v std -> Hpost Hvi Hpr.
    apply experiment_loop_last; [done|]. by apply skipped_false.
Qed.

(** C10.  [get_nowcast] is [get_experiment] at the model "vanilla", so
    the series of the fused model leaves out the early epiweeks of "vi"
    and "pr" as every experiment series does. *)
Theorem get_nowcast_spec d loc :
  get_nowcast d loc = get_experiment d "vanilla" loc ∧
  ∀ m w, get_nowcast d loc = Ok m →
    (loc = "vi"%string ∧ w < 201327) ∨ (loc = "pr"%string ∧ w < 201453) →
    m !! w = None.
Proof.
  split; [done|]. intros m w Hm Hskip.
  apply get_experiment_inv in Hm as (rows & _ & ->).
  rewrite experiment_loop_skipped; [done|]. by apply skipped_spec.
Qed.

End Extractors.

(** ** Metrics *)

Section MetricsFacts.

Implicit Types (x y truth nowcast naive : gmap Z R) (l : list R).

Lemma common_perm x y : common x y ≡ₚ elements (dom x ∩ dom y).
Proof. apply merge_sort_Permutation. Qed.

Lemma elem_of_common x y w :
  w ∈ common x y ↔ is_Some (x !! w) ∧ is_Some (y !! w).
Proof.
  rewrite common_perm, elem_of_elements, elem_of_intersection.
  by rewrite !elem_of_dom.
Qed.

Lemma NoDup_common x y : NoDup (common x y).
Proof. rewrite common_perm. apply NoDup_elements. Qed.

Lemma Sorted_common x y : StronglySorted Z.le (common x y).
Proof. apply StronglySorted_merge_sort; apply _. Qed.

Lemma length_common x y : length (common x y) = size (dom x ∩ dom y).
Proof. by rewrite common_perm. Qed.

Lemma common_nil x y : dom x ∩ dom y = ∅ → common x y = [].
Proof.
  intros H. apply length_zero_iff_nil. rewrite length_common, H. done.
Qed.

Lemma common_dom x y y' :
  dom x ∩ dom y = dom x ∩ dom y' → common x y = common x y'.
Proof. unfold common. by intros ->. Qed.

Lemma np_sub_fmap {A} (f g : A → R) (W : list A) :
  np_sub (f <$> W) (g <$> W) = (λ w, f w - g w)%R <$> W.
Proof. induction W as [|w W IH]; [done|]. cbn. by f_equal. Qed.

Lemma np_sum_nonneg l : Forall (λ r, 0 <= r)%R l → (0 <= np_sum l)%R.
Proof.
  induction 1 as [|r l Hr _ IH]; [cbn; lra|].
  change (np_sum (r :: l)) with (r + np_sum l)%R. lra.
Qed.

Lemma np_sum_zero l : Forall (λ r, r = 0%R) l → np_sum l = 0%R.
Proof.
  induction 1 as [|r l Hr _ IH]; [done|].
  change (np_sum (r :: l)) with (r + np_sum l)%R. lra.
Qed.

Lemma np_mean_mean l : l ≠ [] → np_mean l = Fin (mean l).
Proof. by destruct l. Qed.

Lemma mean_nonneg l : Forall (λ r, 0 <= r)%R l → (0 <= mean l)%R.
Proof.
  intros H. unfold mean. destruct l as [|r l].
  - cbn. lra.
  - apply Rle_mult_inv_pos; [by apply np_sum_nonneg|].
    apply lt_0_INR. cbn. lia.
Qed.

Lemma mean_zero l : Forall (λ r, r = 0%R) l → mean l = 0%R.
Proof. intros H. unfold mean. rewrite np_sum_zero by done. lra. Qed.

(** The two means that [get_metrics] computes, in the specification's
    orientation of the errors. *)
Lemma np_abs_errors truth nowcast W :
  np_abs (np_sub ((λ ew, truth !!! ew) <$> W) ((λ ew, nowcast !!! ew) <$> W))
  = Rabs <$> errors truth nowcast W.
Proof.
  rewrite np_sub_fmap. unfold np_abs, errors. rewrite <- !list_fmap_compose.
  apply list_fmap_ext. intros _ w _. cbn. apply Rabs_minus_sym.
Qed.

Lemma np_square_errors truth nowcast W :
  np_square
    (np_sub ((λ ew, truth !!! ew) <$> W) ((λ ew, nowcast !!! ew) <$> W))
  = (λ e, e ^ 2)%R <$> errors truth nowcast W.
Proof.
  rewrite np_sub_fmap. unfold np_square, errors.
  rewrite <- !list_fmap_compose.
  apply list_fmap_ext. intros _ w _. cbn. lra.
Qed.

Lemma squares_nonneg l : Forall (λ r, 0 <= r)%R ((λ e, e ^ 2)%R <$> l).
Proof.
  apply Forall_fmap, Forall_true. intros e. cbn. apply pow2_ge_0.
Qed.

Lemma get_metrics_plain_eq truth nowcast :
  common truth nowcast ≠ [] →
  get_metrics_plain truth nowcast =
  let W := common truth nowcast in
  {| n := length W;
     rmse := Fin (sqrt (mean ((λ e, e ^ 2)%R <$> errors truth nowcast W)));
     mae := Fin (mean (Rabs <$> errors truth nowcast W));
     mase := None; rmsse := None |}.
Proof.
  intros HW. unfold get_metrics_plain. cbn zeta.
  rewrite np_abs_errors, np_square_errors.
  rewrite !np_mean_mean by (unfold errors; rewrite ?fmap_length; by destruct (common truth nowcast)).
  cbn. rewrite decide_False; [done|].
  apply Rle_not_lt, mean_nonneg, squares_nonneg.
Qed.

Lemma errors_self truth W : Forall (λ r, r = 0%R) (errors truth truth W).
Proof. apply Forall_fmap, Forall_true. intros w. cbn. lra. Qed.

Lemma common_self truth : common truth truth ≠ [] ↔ truth ≠ ∅.
Proof.
  rewrite <- length_zero_iff_nil, length_common.
  rewrite (idemp_L (∩)), size_dom. by rewrite map_size_empty_iff.
Qed.

(** A nonempty series compared with itself. *)
Lemma get_metrics_plain_self truth :
  truth ≠ ∅ →
  get_metrics_plain truth truth =
  {| n := size truth; rmse := Fin 0; mae := Fin 0;
     mase := None; rmsse := None |}.
Proof.
  intros Hne. rewrite get_metrics_plain_eq by by apply common_self.
  cbn zeta. f_equal.
  - by rewrite length_common, (idemp_L (∩)), size_dom.
  - f_equal.
    rewrite (mean_zero ((λ e, e ^ 2)%R <$> _)); [apply sqrt_0|].
    apply Forall_fmap. eapply Forall_impl; [apply errors_self|].
    intros r ->. cbn. lra.
  - f_equal. apply mean_zero.
    apply Forall_fmap. eapply Forall_impl; [apply errors_self|].
    intros r ->. cbn. apply Rabs_R0.
Qed.

(** C1.  When the truth and the estimate share an epiweek,
    [get_metrics] without a baseline returns in [n] the number of shared
    epiweeks, in [mae] the mean of the absolute errors and in [rmse] the
    square root of the mean of the squared errors, the errors being
    [estimate[w] - truth[w]] over the sorted shared epiweeks [W]; a
    nonempty series compared with itself gives [rmse = 0], [mae = 0]
    and [n] the size of the series. *)
Theorem get_metrics_spec truth estimate :
  dom truth ∩ dom estimate ≠ ∅ →
  let W := common truth estimate in
  let result := get_metrics truth estimate None in
  (StronglySorted Z.le W ∧ NoDup W ∧
   ∀ w, w ∈ W ↔ w ∈ dom truth ∧ w ∈ dom estimate) ∧
  n result = size (dom truth ∩ dom estimate) ∧
  mae result = Fin (mean (Rabs <$> errors truth estimate W)) ∧
  rmse result =
    Fin (sqrt (mean ((λ e, e ^ 2)%R <$> errors truth estimate W))) ∧
  (estimate = truth →
   rmse result = Fin 0 ∧ mae result = Fin 0 ∧ n result = size truth).
Proof.
  intros Hne W result.
  assert (HW : W ≠ []).
  { intros HW. apply Hne. apply leibniz_equiv, size_empty_inv.
    rewrite <- length_common. fold W. by rewrite HW. }
  assert (Hresult : result = get_metrics_plain truth estimate) by done.
  rewrite Hresult. split_and!.
  - apply Sorted_common.
  - apply NoDup_common.
  - intros w. unfold W. by rewrite elem_of_common, !elem_of_dom.
  - rewrite get_metrics_plain_eq by done. apply length_common.
  - by rewrite get_metrics_plain_eq.
  - by rewrite get_metrics_plain_eq.
  - intros ->. rewrite get_metrics_plain_self; [done|].
    intros ->. apply Hne. by rewrite (idemp_L (∩)), dom_empty_L.
Qed.

(** *** The baseline *)

Lemma lookup_restrict X x w :
  restrict X x !! w = if decide (w ∈ X) then x !! w else None.
Proof.
  unfold restrict. rewrite map_lookup_filter.
  destruct (x !! w) as [v|]; cbn; [|by case_decide].
  case_decide; [by rewrite option_guard_True|by rewrite option_guard_False].
Qed.

Lemma dom_restrict X x : dom (restrict X x) = X ∩ dom x.
Proof.
  apply set_eq. intros w.
  rewrite elem_of_intersection, !elem_of_dom, lookup_restrict.
  case_decide; [tauto|]. split; [by intros []|tauto].
Qed.

Lemma lookup_total_restrict X x w : w ∈ X → restrict X x !!! w = x !!! w.
Proof.
  intros Hw. rewrite !lookup_total_alt, lookup_restrict.
  by rewrite decide_True.
Qed.

Lemma restrict_restrict X Y x :
  restrict X (restrict Y x) = restrict (X ∩ Y) x.
Proof.
  apply map_eq. intros w. rewrite !lookup_restrict.
  destruct (decide (w ∈ X)) as [HX|HX], (decide (w ∈ Y)) as [HY|HY].
  - by rewrite decide_True by by apply elem_of_intersection.
  - by rewrite decide_False by (rewrite elem_of_intersection; by intros []).
  - by rewrite decide_False by (rewrite elem_of_intersection; by intros []).
  - by rewrite decide_False by (rewrite elem_of_intersection; by intros []).
Qed.

(** [trimmed_naive] is the baseline restricted to the weeks it shares
    with the estimate. *)
Lemma trim_restrict nowcast naive :
  trim nowcast naive = restrict (dom nowcast ∩ dom naive) naive.
Proof.
  apply map_eq. intros w. apply option_eq. intros v.
  unfold trim. rewrite <- elem_of_list_to_map.
  - rewrite list_elem_of_fmap, lookup_restrict. split.
    + intros (ew & [= -> ->] & Hew).
      apply elem_of_common in Hew as [Hn [v Hv]].
      rewrite decide_True.
      * by rewrite (lookup_total_correct _ _ _ Hv).
      * apply elem_of_intersection. rewrite !elem_of_dom. eauto.
    + case_decide as Hw; [|done]. intros Hv. exists w.
      rewrite (lookup_total_correct _ _ _ Hv). split; [done|].
      apply elem_of_common. apply elem_of_intersection in Hw.
      by rewrite !elem_of_dom in Hw.
  - rewrite <- list_fmap_compose.
    change (NoDup (Datatypes.id <$> common nowcast naive)).
    rewrite list_fmap_id. apply NoDup_common.
Qed.

(** The inner call meets the baseline with the truth by itself:
    restricting the baseline to the weeks of the truth as well, before
    the call, does not change what it returns. *)
Lemma get_metrics_plain_restrict truth X naive :
  get_metrics_plain truth (restrict (dom truth ∩ X) naive) =
  get_metrics_plain truth (restrict X naive).
Proof.
  unfold get_metrics_plain.
  assert (HW : common truth (restrict (dom truth ∩ X) naive) =
               common truth (restrict X naive)).
  { apply common_dom. rewrite !dom_restrict.
    by rewrite !(assoc_L (∩)), (idemp_L (∩)). }
  rewrite HW.
  assert (Hb : (λ ew, restrict (dom truth ∩ X) naive !!! ew) <$>
                 common truth (restrict X naive) =
               (λ ew, restrict X naive !!! ew) <$>
                 common truth (restrict X naive)).
  { apply list_fmap_ext. intros i w Hw.
    apply list_elem_of_lookup_2, elem_of_common in Hw as [Ht Hr].
    apply elem_of_dom in Ht. apply elem_of_dom in Hr.
    rewrite dom_restrict in Hr. apply elem_of_intersection in Hr as [HX _].
    rewrite !lookup_total_restrict; [done..|].
    by apply elem_of_intersection. }
  by rewrite Hb.
Qed.

(** C2.  With a baseline, [mase] and [rmsse] are the estimate's [mae]
    and [rmse] divided by those of the baseline restricted to the
    epiweeks it shares with the estimate, the other three entries being
    those of the call without baseline; restricting the baseline to the
    epiweeks of the truth as well gives the inner call the same
    result. *)
Theorem get_metrics_baseline truth estimate baseline :
  let result := get_metrics truth estimate (Some baseline) in
  let baseline' := restrict (dom estimate ∩ dom baseline) baseline in
  let jointly :=
    restrict (dom truth ∩ (dom estimate ∩ dom baseline)) baseline in
  mase result =
    Some (np_div (mae (get_metrics truth estimate None))
                 (mae (get_metrics truth baseline' None))) ∧
  rmsse result =
    Some (np_div (rmse (get_metrics truth estimate None))
                 (rmse (get_metrics truth baseline' None))) ∧
  n result = n (get_metrics truth estimate None) ∧
  mae result = mae (get_metrics truth estimate None) ∧
  rmse result = rmse (get_metrics truth estimate None) ∧
  get_metrics truth jointly None = get_metrics truth baseline' None.
Proof.
  cbn. rewrite trim_restrict. split_and!; try done.
  apply get_metrics_plain_restrict.
Qed.

Lemma np_div_zero (q : float64) (r : R) : np_div q (Fin 0) ≠ Fin r.
Proof.
  destruct q as [a| |]; cbn; [|done..].
  rewrite decide_True by done. by case_decide.
Qed.

Lemma get_metrics_plain_empty truth nowcast :
  dom truth ∩ dom nowcast = ∅ →
  get_metrics_plain truth nowcast =
  {| n := 0; rmse := NaN; mae := NaN; mase := None; rmsse := None |}.
Proof.
  intros Hempty. unfold get_metrics_plain.
  by rewrite (common_nil _ _ Hempty).
Qed.

(** C3.  [get_metrics] raises nothing.  When the truth and the
    estimate share no epiweek it returns [n = 0] with [rmse] and [mae]
    NaN, and NaN skill scores if a baseline is given; when the [mae]
    (the [rmse]) of the restricted baseline is exactly zero, [mase]
    ([rmsse]) is the float quotient, an infinity or NaN and never a
    finite number. *)
Theorem get_metrics_degenerate truth estimate baseline :
  let result := get_metrics truth estimate (Some baseline) in
  let result_naive := get_metrics truth (trim estimate baseline) None in
  (dom truth ∩ dom estimate = ∅ →
   get_metrics truth estimate None =
     {| n := 0; rmse := NaN; mae := NaN; mase := None; rmsse := None |} ∧
   result =
     {| n := 0; rmse := NaN; mae := NaN;
        mase := Some NaN; rmsse := Some NaN |}) ∧
  (mae result_naive = Fin 0 →
   ∃ q, mase result = Some q ∧ ∀ r, q ≠ Fin r) ∧
  (rmse result_naive = Fin 0 →
   ∃ q, rmsse result = Some q ∧ ∀ r, q ≠ Fin r).
Proof.
  intros result result_naive. subst result result_naive.
  unfold get_metrics. split_and!.
  - intros Hempty. by rewrite (get_metrics_plain_empty _ _ Hempty).
  - cbn. intros ->. eexists. split; [done|]. intros r. apply np_div_zero.
  - cbn. intros ->. eexists. split; [done|]. intros r. apply np_div_zero.
Qed.

End MetricsFacts.

(** ** The two baselines *)

Section Naive.

Context (add_epiweeks : Z → Z → Z).

Implicit Types (truth nowcast acc : gmap Z R) (l : list Z).

Lemma elem_of_keys truth w : w ∈ keys truth ↔ is_Some (truth !! w).
Proof.
  unfold keys. rewrite list_elem_of_fmap. split.
  - intros ([w' v] & -> & Hin). apply elem_of_map_to_list in Hin. by exists v.
  - intros [v Hv]. exists (w, v). split; [done|].
    by apply elem_of_map_to_list.
Qed.

Lemma get_truth_inv d loc truth :
  get_truth d loc = Ok truth → is_Some (fluview d).
Proof. unfold get_truth. by destruct (fluview d). Qed.

(** *** [get_naive_nowcast] *)

Lemma naive_loop_lookup truth acc l w :
  foldl (λ nowcast ew1,
           match truth !! add_epiweeks ew1 (-1) with
           | Some v => <[ew1 := v]> nowcast
           | None => nowcast
           end) acc l !! w =
  if decide (w ∈ l) then
    match truth !! add_epiweeks w (-1) with
    | Some v => Some v
    | None => acc !! w
    end
  else acc !! w.
Proof.
  induction l as [|ew l IH] using rev_ind.
  - by rewrite decide_False by apply not_elem_of_nil.
  - rewrite foldl_app. cbn. destruct (decide (w = ew)) as [->|Hne].
    + rewrite decide_True by (apply elem_of_app; right; by apply list_elem_of_singleton).
      destruct (truth !! add_epiweeks ew (-1)) as [v|] eqn:E.
      * apply lookup_insert_eq.
      * rewrite IH. by case_decide.
    + assert (Hin : w ∈ l ++ [ew] ↔ w ∈ l).
      { rewrite elem_of_app, list_elem_of_singleton. tauto. }
      assert (Hstep : ∀ m : gmap Z R,
        match truth !! add_epiweeks ew (-1) with
        | Some v => <[ew := v]> m | None => m end !! w = m !! w).
      { intros m. destruct (truth !! add_epiweeks ew (-1)); [|done].
        by rewrite lookup_insert_ne. }
      rewrite Hstep, IH.
      destruct (decide (w ∈ l)), (decide (w ∈ l ++ [ew])); tauto.
Qed.

(** C4.  [get_naive_nowcast] takes the location only: the lag is the
    constant 1 of the code (the naive oracle).  For every location and
    every epiweek [w] of the truth series, the naive series has at [w]
    the truth of the epiweek before, when the truth has one, and has
    nothing at [w] otherwise; it has no epiweek outside the truth. *)
Theorem get_naive_nowcast_spec d loc truth :
  get_truth d loc = Ok truth →
  ∃ naive, get_naive_nowcast add_epiweeks d loc = Ok naive ∧
    (∀ w, is_Some (truth !! w) →
       naive !! w = truth !! add_epiweeks w (-1)) ∧
    (∀ w, truth !! w = None → naive !! w = None).
Proof.
  intros Ht. unfold get_naive_nowcast. rewrite Ht. cbn.
  eexists. split; [done|]. split.
  - intros w Hw. rewrite naive_loop_lookup.
    rewrite decide_True by by apply elem_of_keys.
    by destruct (truth !! add_epiweeks w (-1)).
  - intros w Hw. rewrite naive_loop_lookup.
    rewrite decide_False; [done|].
    rewrite elem_of_keys, Hw. by intros [].
Qed.

End Naive.

Section Median.

Implicit Types (values s : list R).

#[local] Instance Rle_trans' : Transitive Rle := Rle_trans.
#[local] Instance Rle_total' : Total Rle.
Proof. intros a b. destruct (Rle_lt_dec a b); [by left|right; lra]. Qed.
#[local] Instance Rle_antisymm' : AntiSymm (=) Rle := Rle_antisym.

Lemma np_median_is_median values :
  values ≠ [] → is_median values (np_median values).
Proof.
  intros Hne. exists (merge_sort Rle values).
  assert (Hperm : merge_sort Rle values ≡ₚ values)
    by apply merge_sort_Permutation.
  assert (Hlen : (0 < length (merge_sort Rle values))%nat).
  { rewrite Hperm. destruct values; [done|cbn; lia]. }
  split; [done|]. split; [apply StronglySorted_merge_sort; apply _|].
  unfold np_median. cbn zeta.
  set (s := merge_sort Rle values) in *.
  assert (Hk : (length s / 2 < length s)%nat)
    by (apply Nat.div_lt; lia).
  destruct (Nat.even (length s)).
  - exists (s !!! (length s / 2 - 1)%nat), (s !!! (length s / 2)%nat).
    split_and!; [|by apply list_lookup_lookup_total_lt|done].
    apply list_lookup_lookup_total_lt. lia.
  - by apply list_lookup_lookup_total_lt.
Qed.

Lemma is_median_unique values m m' :
  is_median values m → is_median values m' → m = m'.
Proof.
  intros (s & Hs & Hsorted & Hm) (s' & Hs' & Hsorted' & Hm').
  assert (s = s') as <-.
  { apply (StronglySorted_unique Rle); [done..|]. by rewrite Hs, Hs'. }
  cbn zeta in *. destruct (Nat.even (length s)).
  - destruct Hm as (a & b & Ha & Hb & ->), Hm' as (a' & b' & Ha' & Hb' & ->).
    congruence.
  - congruence.
Qed.

Lemma is_median_perm values values' m :
  values ≡ₚ values' → is_median values m → is_median values' m.
Proof.
  intros Hperm (s & Hs & Hm). exists s. split; [|done]. by rewrite Hs.
Qed.

(** The median does not depend on the order of the values. *)
Lemma np_median_perm values values' :
  values ≡ₚ values' → np_median values = np_median values'.
Proof.
  intros Hperm. destruct values as [|v values].
  - apply Permutation_nil_l in Hperm. by subst.
  - apply (is_median_unique (v :: values)).
    + by apply np_median_is_median.
    + apply (is_median_perm values'); [done|].
      apply np_median_is_median.
      intros ->. by apply Permutation_nil_r in Hperm.
Qed.

Lemma np_median_1 a : np_median [a] = a.
Proof. done. Qed.

Lemma np_median_2 a b : np_median [a; b] = ((a + b) / 2)%R.
Proof.
  unfold np_median, merge_sort. cbn.
  case_decide; cbn; lra.
Qed.

End Median.

Section Ensemble.

Context (SENSORS : list string).

Implicit Types (truth nowcast acc : gmap Z R) (l : list Z).

(** *** [get_alternative_nowcast] *)

Lemma foldl_ext_in {A B} (f g : A → B → A) (a : A) (bs : list B) :
  (∀ a b, b ∈ bs → f a b = g a b) → foldl f a bs = foldl g a bs.
Proof.
  revert a. induction bs as [|b bs IH]; intros a Hfg; [done|]. cbn.
  rewrite Hfg by apply list_elem_of_here.
  apply IH. intros a' b' Hb'. apply Hfg. by apply list_elem_of_further.
Qed.

(** The dict [sensors] after its loop. *)
Lemma sensors_loop d loc (series : string → gmap Z R) names
    (acc : gmap string (gmap Z R)) :
  (∀ s, s ∈ names → get_sensor d s loc = Ok (series s)) →
  ∃ m, foldlM (λ (sensors : gmap string (gmap Z R)) sensor,
                 x ← get_sensor d sensor loc;
                 mret (<[sensor := x]> sensors)) acc names = Ok m ∧
       ∀ s, m !! s = if decide (s ∈ names) then Some (series s)
                     else acc !! s.
Proof.
  revert acc. induction names as [|s0 names IH]; intros acc Hs.
  - exists acc. split; [done|]. intros s.
    by rewrite decide_False by apply not_elem_of_nil.
  - cbn. rewrite Hs by apply list_elem_of_here. cbn.
    destruct (IH (<[s0 := series s0]> acc)) as (m & Hm & Hlook).
    { intros s Hin. apply Hs. by apply list_elem_of_further. }
    exists m. split; [done|]. intros s. rewrite Hlook.
    destruct (decide (s = s0)) as [->|Hne].
    + rewrite lookup_insert_eq.
      rewrite (decide_True (P := s0 ∈ s0 :: names)) by apply list_elem_of_here.
      by case_decide.
    + rewrite lookup_insert_ne by done.
      destruct (decide (s ∈ names)) as [Hin|Hin].
      * by rewrite decide_True by by apply list_elem_of_further.
      * rewrite decide_False; [done|].
        rewrite elem_of_cons. tauto.
Qed.

(** The list [values] after its loop. *)
Lemma values_loop (f : string → option R) (values : list R) names :
  foldl (λ values sensor,
           match f sensor with
           | Some v => values ++ [v]
           | None => values
           end) values names = values ++ omap f names.
Proof.
  revert values. induction names as [|s names IH]; intros values; cbn.
  - by rewrite app_nil_r.
  - rewrite IH. destruct (f s); [|done]. by rewrite <- app_assoc.
Qed.

Lemma contributions_fmap (series : string → gmap Z R) names w :
  contributions (series <$> names) w = omap (λ s, series s !! w) names.
Proof.
  unfold contributions.
  induction names as [|s names IH]; [done|]. cbn.
  rewrite IH. done.
Qed.

Lemma median_loop_lookup (g : Z → list R) acc l w :
  foldl (λ nowcast ew,
           match g ew with
           | [] => nowcast
           | _ => <[ew := np_median (g ew)]> nowcast
           end) acc l !! w =
  if decide (w ∈ l) then
    match g w with
    | [] => acc !! w
    | _ => Some (np_median (g w))
    end
  else acc !! w.
Proof.
  induction l as [|ew l IH] using rev_ind.
  - by rewrite decide_False by apply not_elem_of_nil.
  - rewrite foldl_app. cbn. destruct (decide (w = ew)) as [->|Hne].
    + rewrite decide_True
        by (apply elem_of_app; right; by apply list_elem_of_singleton).
      destruct (g ew) as [|v vs] eqn:E.
      * rewrite IH. by case_decide.
      * apply lookup_insert_eq.
    + assert (Hin : w ∈ l ++ [ew] ↔ w ∈ l).
      { rewrite elem_of_app, list_elem_of_singleton. tauto. }
      assert (Hstep : ∀ m : gmap Z R,
        match g ew with
        | [] => m | _ => <[ew := np_median (g ew)]> m end !! w = m !! w).
      { intros m. destruct (g ew); [done|]. by rewrite lookup_insert_ne. }
      rewrite Hstep, IH.
      destruct (decide (w ∈ l)), (decide (w ∈ l ++ [ew])); tauto.
Qed.

(** C5.  For every location and every epiweek [w] of the truth
    series: when some registered sensor has a value at [w] for the
    location, the ensemble series has at [w] the median of exactly the
    values of the sensors that have one, which is the mean of the two
    middle values when their number is even; when none has, [w] is
    absent; and no epiweek outside the truth series appears. *)
Theorem get_alternative_nowcast_spec d loc truth
    (series : string → gmap Z R) :
  get_truth d loc = Ok truth →
  (∀ s, s ∈ SENSORS → get_sensor d s loc = Ok (series s)) →
  ∃ nowcast, get_alternative_nowcast SENSORS d loc = Ok nowcast ∧
    ∀ w, let values := contributions (series <$> SENSORS) w in
      (is_Some (truth !! w) → values ≠ [] →
       nowcast !! w = Some (np_median values) ∧
       is_median values (np_median values)) ∧
      (values = [] → nowcast !! w = None) ∧
      (truth !! w = None → nowcast !! w = None).
Proof.
  intros Ht Hs.
  exists (foldl (λ nowcast ew,
       match contributions (series <$> SENSORS) ew with
       | [] => nowcast
       | _ => <[ew := np_median (contributions (series <$> SENSORS) ew)]>
                nowcast
       end) ∅ (keys truth)).
  split.
  - unfold get_alternative_nowcast.
    destruct (sensors_loop d loc series SENSORS ∅ Hs) as (m & -> & Hm).
    cbn [mbind res_bind]. rewrite Ht. cbn [mbind res_bind mret res_ret].
    f_equal. apply foldl_ext_in. intros nowcast ew _.
    assert (foldl (λ values sensor,
             match (m !!! sensor : gmap Z R) !! ew with
             | Some v => values ++ [v]
             | None => values
             end) [] SENSORS = contributions (series <$> SENSORS) ew) as ->;
      [|done].
    rewrite contributions_fmap.
    rewrite <- (app_nil_l (omap _ _)), <- values_loop.
    apply foldl_ext_in. intros values s Hin.
    assert (m !!! s = series s) as ->; [|done].
    apply lookup_total_correct. rewrite Hm. by rewrite decide_True.
  - intros w values. rewrite median_loop_lookup. fold values. split_and!.
    + intros Hw Hne. split; [|by apply np_median_is_median].
      rewrite decide_True by by apply elem_of_keys.
      by destruct values.
    + intros ->. by case_decide.
    + intros Hw. rewrite decide_False; [done|].
      rewrite elem_of_keys, Hw. by intros [].
Qed.

End Ensemble.

(** ** The sensor coverage matrix *)

Section Heatmap.

Context (SENSORS : list string) (range_epiweeks : Z → Z → bool → list Z).

Implicit Types (x : gmap Z R) (names : list string) (weeks l : list Z).

(** *** [min] and [max] *)

Lemma foldl_min_spec k l :
  foldl Z.min k l ∈ k :: l ∧ Forall (Z.le (foldl Z.min k l)) (k :: l).
Proof.
  revert k. induction l as [|k' l IH]; intros k; cbn.
  - split; [apply list_elem_of_here|]. by repeat constructor.
  - destruct (IH (Z.min k k')) as [Hin Hle].
    apply Forall_cons in Hle as [Hle1 Hle2]. split.
    + apply elem_of_cons in Hin as [Hin|Hin].
      * rewrite Hin. destruct (Z.min_spec k k') as [[_ ->]|[_ ->]].
        -- apply list_elem_of_here.
        -- apply list_elem_of_further, list_elem_of_here.
      * by do 2 apply list_elem_of_further.
    + repeat constructor; [lia..|done].
Qed.

Lemma foldl_max_spec k l :
  foldl Z.max k l ∈ k :: l ∧ Forall (λ w, w ≤ foldl Z.max k l) (k :: l).
Proof.
  revert k. induction l as [|k' l IH]; intros k; cbn.
  - split; [apply list_elem_of_here|]. by repeat constructor.
  - destruct (IH (Z.max k k')) as [Hin Hle].
    apply Forall_cons in Hle as [Hle1 Hle2]. split.
    + apply elem_of_cons in Hin as [Hin|Hin].
      * rewrite Hin. destruct (Z.max_spec k k') as [[_ ->]|[_ ->]].
        -- apply list_elem_of_further, list_elem_of_here.
        -- apply list_elem_of_here.
      * by do 2 apply list_elem_of_further.
    + repeat constructor; [lia..|done].
Qed.

Lemma py_min_Ok l m :
  py_min l = Ok m → m ∈ l ∧ Forall (Z.le m) l.
Proof.
  destruct l as [|k l]; [done|]. intros [= <-]. apply foldl_min_spec.
Qed.

Lemma py_max_Ok l m :
  py_max l = Ok m → m ∈ l ∧ Forall (λ w, w ≤ m) l.
Proof.
  destruct l as [|k l]; [done|]. intros [= <-]. apply foldl_max_spec.
Qed.

Lemma py_min_is_Ok l : l ≠ [] → ∃ m, py_min l = Ok m.
Proof. destruct l; [done|]. by eexists. Qed.

Lemma py_max_is_Ok l : l ≠ [] → ∃ m, py_max l = Ok m.
Proof. destruct l; [done|]. by eexists. Qed.

Lemma keys_nil x : keys x = [] ↔ x = ∅.
Proof.
  unfold keys. split.
  - intros H. apply fmap_nil_inv in H. by apply map_to_list_empty_iff.
  - intros ->. by rewrite map_to_list_empty.
Qed.

(** *** The first loop: the bounds of each sensor *)

Lemma bounds_loop_Ok d (series : string → gmap Z R) names w0s w1s :
  (∀ s, s ∈ names → get_sensor d s "nat" = Ok (series s)) →
  (∀ s, s ∈ names → series s ≠ ∅) →
  ∃ los his,
    foldlM (λ '(w0s, w1s) sensor,
              x ← get_sensor d sensor "nat";
              lo ← py_min (keys x);
              hi ← py_max (keys x);
              mret (w0s ++ [lo], w1s ++ [hi]))
           (w0s, w1s) names = Ok (w0s ++ los, w1s ++ his) ∧
    Forall2 (λ s lo, py_min (keys (series s)) = Ok lo) names los ∧
    Forall2 (λ s hi, py_max (keys (series s)) = Ok hi) names his.
Proof.
  revert w0s w1s. induction names as [|s names IH]; intros w0s w1s Hs Hne.
  - exists [], []. rewrite !app_nil_r. by repeat split.
  - assert (Hk : keys (series s) ≠ []).
    { rewrite keys_nil. apply Hne, list_elem_of_here. }
    destruct (py_min_is_Ok _ Hk) as [lo Hlo].
    destruct (py_max_is_Ok _ Hk) as [hi Hhi].
    destruct (IH (w0s ++ [lo]) (w1s ++ [hi])) as (los & his & Hrun & H0 & H1).
    { intros s' Hin. apply Hs. by apply list_elem_of_further. }
    { intros s' Hin. apply Hne. by apply list_elem_of_further. }
    exists (lo :: los), (hi :: his). split_and!.
    + cbn. rewrite Hs by apply list_elem_of_here. cbn.
      rewrite Hlo, Hhi. cbn. rewrite Hrun.
      by rewrite <- !app_assoc.
    + by constructor.
    + by constructor.
Qed.

Lemma bounds_loop_inv d names acc out :
  foldlM (λ '(w0s, w1s) sensor,
            x ← get_sensor d sensor "nat";
            lo ← py_min (keys x);
            hi ← py_max (keys x);
            mret (w0s ++ [lo], w1s ++ [hi]))
         acc names = Ok out →
  ∀ s, s ∈ names → ∃ x, get_sensor d s "nat" = Ok x ∧ x ≠ ∅.
Proof.
  revert acc. induction names as [|s names IH]; intros [w0s w1s] Hrun s' Hin.
  - by apply elem_of_nil in Hin.
  - cbn in Hrun. destruct (get_sensor d s "nat") as [x|e] eqn:Hx; [|done].
    cbn in Hrun. destruct (py_min (keys x)) as [lo|e] eqn:Hlo; [|done].
    cbn in Hrun. destruct (py_max (keys x)) as [hi|e] eqn:Hhi; [|done].
    cbn in Hrun. apply elem_of_cons in Hin as [->|Hin].
    + exists x. split; [done|]. intros ->. by rewrite (proj2 (keys_nil ∅)) in Hlo.
    + by apply (IH _ Hrun).
Qed.

(** *** The second loop: the cells *)

(** One row, cell by cell: [pre] holds the cells already visited. *)
Lemma cells_loop x i (before after : list (list R)) (pre : list R) weeks :
  length before = i →
  foldl (λ data '(j, ew),
           match x !! ew with
           | Some v => setitem2 data i j v
           | None => data
           end)
        (before ++ (pre ++ replicate (length weeks) (-1)%R) :: after)
        (imap (λ j ew, ((length pre + j)%nat, ew)) weeks)
  = before ++ (pre ++ ((λ w, default (-1)%R (x !! w)) <$> weeks)) :: after.
Proof.
  intros Hi. revert pre. induction weeks as [|ew weeks IH]; intros pre.
  - done.
  - rewrite imap_cons.
    rewrite (imap_ext _ (λ j w, ((length (pre ++ [default (-1)%R (x !! ew)]) + j)%nat, w))).
    2:{ intros j w _. cbn. rewrite length_app. cbn. f_equal. lia. }
    cbn [foldl length replicate fmap list_fmap].
    assert (Hstep :
      match x !! ew with
      | Some v =>
          setitem2 (before ++ (pre ++ (-1)%R :: replicate (length weeks) (-1)%R) :: after)
            i (length pre + 0) v
      | None => before ++ (pre ++ (-1)%R :: replicate (length weeks) (-1)%R) :: after
      end =
      before ++ ((pre ++ [default (-1)%R (x !! ew)]) ++
                 replicate (length weeks) (-1)%R) :: after).
    { rewrite <- app_assoc. cbn [app].
      destruct (x !! ew) as [v|]; [|done]. unfold setitem2.
      rewrite alter_app_r_alt by lia.
      replace (i - length before)%nat with 0%nat by lia. cbn.
      by rewrite insert_app_r. }
    rewrite Hstep, IH. by rewrite <- app_assoc.
Qed.

(** All rows: [done] holds the rows already filled. *)
Lemma rows_loop d (series : string → gmap Z R) names weeks
    (done : list (list R)) :
  (∀ s, s ∈ names → get_sensor d s "nat" = Ok (series s)) →
  foldlM (λ data '(i, sensor),
            x ← get_sensor d sensor "nat";
            mret (foldl (λ data '(j, ew),
                           match x !! ew with
                           | Some v => setitem2 data i j v
                           | None => data
                           end) data (enumerate weeks)))
         (done ++ replicate (length names) (replicate (length weeks) (-1)%R))
         (imap (λ i s, ((length done + i)%nat, s)) names)
  = Ok (done ++
        ((λ s, (λ w, default (-1)%R (series s !! w)) <$> weeks) <$> names)).
Proof.
  revert done. induction names as [|s names IH]; intros done Hs.
  - done.
  - rewrite imap_cons.
    rewrite (imap_ext _ (λ i s', ((length (done ++ [(λ w, default (-1)%R (series s !! w)) <$> weeks]) + i)%nat, s'))).
    2:{ intros j w _. cbn. rewrite length_app. cbn. f_equal. lia. }
    cbn [foldlM length replicate].
    rewrite Hs by apply list_elem_of_here. cbn [mbind res_bind mret res_ret].
    pose proof (cells_loop (series s) (length done + 0)%nat done
      (replicate (length names) (replicate (length weeks) (-1)%R)) [] weeks)
      as Hrow.
    cbn [app length Nat.add] in Hrow. unfold enumerate.
    rewrite Hrow by lia.
    rewrite (cons_middle _ done), app_assoc.
    rewrite IH.
    + by rewrite <- app_assoc.
    + intros s' Hin. apply Hs. by apply list_elem_of_further.
Qed.

(** *** The whole function *)

Lemma Forall2_elem_of_l {A B} (P : A → B → Prop) (as_ : list A)
    (bs : list B) a :
  Forall2 P as_ bs → a ∈ as_ → ∃ b, b ∈ bs ∧ P a b.
Proof.
  induction 1 as [|a' b' as_ bs HP _ IH]; intros Hin.
  - by apply elem_of_nil in Hin.
  - apply elem_of_cons in Hin as [->|Hin].
    + exists b'. split; [apply list_elem_of_here|done].
    + destruct (IH Hin) as (b & Hb & HPb).
      exists b. split; [by apply list_elem_of_further|done].
Qed.

Lemma Forall2_elem_of_r {A B} (P : A → B → Prop) (as_ : list A)
    (bs : list B) b :
  Forall2 P as_ bs → b ∈ bs → ∃ a, a ∈ as_ ∧ P a b.
Proof.
  induction 1 as [|a' b' as_ bs HP _ IH]; intros Hin.
  - by apply elem_of_nil in Hin.
  - apply elem_of_cons in Hin as [->|Hin].
    + exists a'. split; [apply list_elem_of_here|done].
    + destruct (IH Hin) as (a & Ha & HPa).
      exists a. split; [by apply list_elem_of_further|done].
Qed.

Lemma get_heatmap_data_run d (series : string → gmap Z R) :
  SENSORS ≠ [] →
  (∀ s, s ∈ SENSORS → get_sensor d s "nat" = Ok (series s)) →
  (∀ s, s ∈ SENSORS → series s ≠ ∅) →
  ∃ w0 w1,
    least SENSORS series w0 ∧ greatest SENSORS series w1 ∧
    get_heatmap_data SENSORS range_epiweeks d =
    Ok ((λ s, (λ w, default (-1)%R (series s !! w)) <$>
                range_epiweeks w0 w1 true) <$> SENSORS,
        SENSORS, range_epiweeks w0 w1 true).
Proof.
  intros Hnil Hs Hne.
  destruct (bounds_loop_Ok d series SENSORS [] [] Hs Hne)
    as (los & his & Hrun & Hlos & Hhis).
  cbn [app] in Hrun.
  destruct (py_min_is_Ok los) as [w0 Hw0].
  { intros ->. apply Forall2_nil_inv_r in Hlos. done. }
  destruct (py_max_is_Ok his) as [w1 Hw1].
  { intros ->. apply Forall2_nil_inv_r in Hhis. done. }
  exists w0, w1. split_and!.
  - apply py_min_Ok in Hw0 as [Hin Hle]. split.
    + destruct (Forall2_elem_of_r _ _ _ _ Hlos Hin) as (s & Hsin & Hmin).
      exists s. split; [done|].
      apply py_min_Ok in Hmin as [Hk _]. by apply elem_of_keys.
    + intros s w Hsin Hw.
      destruct (Forall2_elem_of_l _ _ _ _ Hlos Hsin) as (lo & Hlo & Hmin).
      apply py_min_Ok in Hmin as [_ Hall].
      rewrite Forall_forall in Hle, Hall.
      specialize (Hle lo Hlo). specialize (Hall w).
      rewrite elem_of_keys in Hall. specialize (Hall Hw). lia.
  - apply py_max_Ok in Hw1 as [Hin Hle]. split.
    + destruct (Forall2_elem_of_r _ _ _ _ Hhis Hin) as (s & Hsin & Hmax).
      exists s. split; [done|].
      apply py_max_Ok in Hmax as [Hk _]. by apply elem_of_keys.
    + intros s w Hsin Hw.
      destruct (Forall2_elem_of_l _ _ _ _ Hhis Hsin) as (hi & Hhi & Hmax).
      apply py_max_Ok in Hmax as [_ Hall].
      rewrite Forall_forall in Hle, Hall.
      specialize (Hle hi Hhi). specialize (Hall w).
      rewrite elem_of_keys in Hall. specialize (Hall Hw). lia.
  - unfold get_heatmap_data. rewrite Hrun. cbn [mbind res_bind].
    rewrite Hw0, Hw1. cbn [mbind res_bind].
    pose proof (rows_loop d series SENSORS (range_epiweeks w0 w1 true) [] Hs)
      as Hfill.
    cbn [app length Nat.add] in Hfill. unfold enumerate at 2.
    rewrite Hfill. done.
Qed.

(** C7.  When every registered sensor has a reading at "nat",
    [get_heatmap_data] returns the sensor names, the week axis
    [range_epiweeks w0 w1 inclusive=True] from the least to the greatest
    epiweek of all sensors, and a matrix with one row per sensor and
    one column per week of the axis whose entry [(i, j)] is the value of
    sensor [i] at week [j] when it has one and -1 otherwise. *)
Theorem get_heatmap_data_spec d (series : string → gmap Z R) :
  SENSORS ≠ [] →
  (∀ s, s ∈ SENSORS → get_sensor d s "nat" = Ok (series s)) →
  (∀ s, s ∈ SENSORS → series s ≠ ∅) →
  ∃ w0 w1 data weeks,
    get_heatmap_data SENSORS range_epiweeks d = Ok (data, SENSORS, weeks) ∧
    weeks = range_epiweeks w0 w1 true ∧
    least SENSORS series w0 ∧ greatest SENSORS series w1 ∧
    length data = length SENSORS ∧
    Forall (λ row, length row = length weeks) data ∧
    ∀ i j s w, SENSORS !! i = Some s → weeks !! j = Some w →
      ∃ row, data !! i = Some row ∧
             row !! j = Some (default (-1)%R (series s !! w)).
Proof.
  intros Hnil Hs Hne.
  destruct (get_heatmap_data_run d series Hnil Hs Hne)
    as (w0 & w1 & Hw0 & Hw1 & Hrun).
  eexists w0, w1, _, _. split; [exact Hrun|]. split_and!; try done.
  - by rewrite length_fmap.
  - apply Forall_fmap, Forall_true. intros s. cbn. by rewrite length_fmap.
  - intros i j s w Hi Hj. eexists. split.
    + rewrite list_lookup_fmap, Hi. done.
    + rewrite list_lookup_fmap, Hj. done.
Qed.

(** C8.  [get_heatmap_data] succeeds exactly when there is a registered
    sensor and every registered sensor has at least one reading at
    "nat"; it raises as soon as one registered sensor has none. *)
Theorem get_heatmap_data_succeeds d :
  (∃ out, get_heatmap_data SENSORS range_epiweeks d = Ok out) ↔
  SENSORS ≠ [] ∧
  ∀ s, s ∈ SENSORS → ∃ x, get_sensor d s "nat" = Ok x ∧ x ≠ ∅.
Proof.
  split.
  - intros [out Hout]. unfold get_heatmap_data in Hout. split.
    + intros Hnil. rewrite Hnil in Hout. done.
    + destruct (foldlM _ ([], []) SENSORS) as [acc|e] eqn:Hrun; [|done].
      by apply (bounds_loop_inv _ _ _ _ Hrun).
  - intros [Hnil Hs].
    pose (series := λ s, match get_sensor d s "nat" with
                         | Ok x => x
                         | Raise _ => ∅
                         end).
    destruct (get_heatmap_data_run d series Hnil) as (w0 & w1 & _ & _ & Hrun).
    + intros s Hin. destruct (Hs s Hin) as (x & Hx & _).
      unfold series. by rewrite Hx.
    + intros s Hin. destruct (Hs s Hin) as (x & Hx & Hne).
      unfold series. by rewrite Hx.
    + by eexists.
Qed.

End Heatmap.

(** ** The loader *)

Section Loader.

Context (int_str : string → option Z) (float_str : string → option R).

Implicit Types (raw mid : list string) (row : list cell).

(** Reading and writing the last [k] cells of a row. *)
Lemma getitem_neg_app row c tail :
  getitem_neg (row ++ c :: tail) (S (length tail)) = Ok c.
Proof.
  unfold getitem_neg. rewrite length_app. cbn [length].
  rewrite decide_True by lia.
  replace (length row + S (length tail) - S (length tail))%nat
    with (length row) by lia.
  by rewrite list_lookup_middle.
Qed.

Lemma setitem_neg_app row c c' tail :
  setitem_neg (row ++ c :: tail) (S (length tail)) c' = row ++ c' :: tail.
Proof.
  unfold setitem_neg. rewrite length_app. cbn [length].
  replace (length row + S (length tail) - S (length tail))%nat
    with (length row + 0)%nat by lia.
  by rewrite insert_app_r.
Qed.

Lemma getitem_neg_1 row c : getitem_neg (row ++ [c]) 1 = Ok c.
Proof. apply (getitem_neg_app row c []). Qed.

Lemma getitem_neg_2 row c c' : getitem_neg (row ++ [c; c']) 2 = Ok c.
Proof. apply (getitem_neg_app row c [c']). Qed.

Lemma setitem_neg_1 row c c' : setitem_neg (row ++ [c]) 1 c' = row ++ [c'].
Proof. apply (setitem_neg_app row c c' []). Qed.

Lemma setitem_neg_2 row c c' c2 :
  setitem_neg (row ++ [c; c2]) 2 c' = row ++ [c'; c2].
Proof. apply (setitem_neg_app row c c' [c2]). Qed.

(** The loader on a row of three columns or more: the first and the
    last column must read as numbers, the column before the last is
    read as a number when it can be and kept as text otherwise, and
    the columns between stay text. *)
Lemma load_row_columns s0 mid sp sl :
  load_row int_str float_str (s0 :: mid ++ [sp; sl]) =
  match int_str s0, float_str sl with
  | Some week, Some x =>
      Ok (Int week :: (Str <$> mid) ++
          [match float_str sp with Some y => Float y | None => Str sp end;
           Float x])
  | _, _ => Raise ValueError
  end.
Proof.
  unfold load_row, py_int. destruct (int_str s0) as [week|]; [|done].
  cbn [mbind res_bind]. rewrite fmap_cons, fmap_app.
  cbn [fmap list_fmap insert list_insert].
  rewrite app_comm_cons.
  set (row := Int week :: (Str <$> mid)).
  replace (row ++ [Str sp; Str sl]) with ((row ++ [Str sp]) ++ [Str sl])
    by by rewrite <- app_assoc.
  rewrite getitem_neg_1. cbn [mbind res_bind py_float].
  destruct (float_str sl) as [x|]; [|done].
  cbn [mbind res_bind]. rewrite setitem_neg_1, <- app_assoc.
  cbn [app]. rewrite getitem_neg_2. cbn [mbind res_bind py_float].
  destruct (float_str sp) as [y|].
  - by rewrite setitem_neg_2.
  - done.
Qed.
(** C9.  On every row of three columns or more the loader turns the
    first column into an integer and the last column into a float and
    raises [ValueError] exactly when one of the two does not read as a
    number; the column before the last becomes a float when it reads as
    one and is kept as raw text otherwise, without an error; the
    columns between stay text. *)
Theorem load_row_spec s0 mid sp sl :
  match load_row int_str float_str (s0 :: mid ++ [sp; sl]) with
  | Ok row =>
      ∃ week x,
        int_str s0 = Some week ∧ float_str sl = Some x ∧
        row = Int week :: (Str <$> mid) ++
              [match float_str sp with
               | Some y => Float y
               | None => Str sp
               end; Float x]
  | Raise e =>
      e = ValueError ∧ (int_str s0 = None ∨ float_str sl = None)
  end.
Proof.
  rewrite load_row_columns.
  destruct (int_str s0) as [week|]; [|by auto].
  destruct (float_str sl) as [x|]; [|by auto].
  by exists week, x.
Qed.

(** A file loads when each of its rows does, row by row in order; the
    first row that raises aborts the load. *)
Lemma load_file_app acc rows :
  foldlM (λ acc raw, row ← load_row int_str float_str raw;
                     mret (acc ++ [row])) acc rows =
  match load_file int_str float_str rows with
  | Ok out => Ok (acc ++ out)
  | Raise e => Raise e
  end.
Proof.
  unfold load_file. revert acc.
  induction rows as [|raw rows IH]; intros acc; cbn.
  - by rewrite app_nil_r.
  - destruct (load_row int_str float_str raw) as [row|e]; [|done]. cbn.
    rewrite (IH (acc ++ [row])), (IH [row]).
    destruct (foldlM _ [] rows); [|done]. by rewrite <- app_assoc.
Qed.

Lemma load_file_cons raw rows :
  load_file int_str float_str (raw :: rows) =
  row ← load_row int_str float_str raw;
  out ← load_file int_str float_str rows;
  mret (row :: out).
Proof.
  unfold load_file at 1. cbn.
  destruct (load_row int_str float_str raw) as [row|e]; [|done]. cbn.
  rewrite load_file_app. by destruct (load_file _ _ rows).
Qed.

End Loader.

(** * The functions on concrete tables *)

(** ** Metrics *)

Lemma ex_common : common ex_truth ex_estimate = [100; 101; 102].
Proof. reflexivity. Qed.

Lemma ex_overlap : dom ex_truth ∩ dom ex_estimate ≠ ∅.
Proof.
  intros H. apply (f_equal size) in H. discriminate H.
Defined.

Lemma get_metrics_spec_witness :
  dom ex_truth ∩ dom ex_estimate ≠ ∅ ∧
  n (get_metrics ex_truth ex_estimate None) = 3%nat ∧
  mae (get_metrics ex_truth ex_estimate None) =
    Fin (mean (Rabs <$> errors ex_truth ex_estimate [100; 101; 102])) ∧
  rmse (get_metrics ex_truth ex_estimate None) =
    Fin (sqrt (mean ((λ e, e ^ 2)%R <$>
                       errors ex_truth ex_estimate [100; 101; 102]))).
Proof.
  split; [exact ex_overlap|].
  pose proof (get_metrics_spec ex_truth ex_estimate ex_overlap) as H.
  cbv zeta in H. destruct H as (_ & Hn & Hmae & Hrmse & _).
  split_and!; [exact Hn|exact Hmae|exact Hrmse].
Defined.

(** The worked example: three shared weeks, one error of 1. *)
Example get_metrics_example :
  get_metrics ex_truth ex_estimate None =
  {| n := 3; rmse := Fin (sqrt (1 / 3)); mae := Fin (1 / 3);
     mase := None; rmsse := None |}.
Proof.
  unfold get_metrics. rewrite get_metrics_plain_eq by by rewrite ex_common.
  rewrite ex_common. cbn zeta. unfold errors, mean. cbn [fmap list_fmap length np_sum foldr].
  assert (ex_truth !!! 100 = 1%R) as -> by reflexivity.
  assert (ex_truth !!! 101 = 2%R) as -> by reflexivity.
  assert (ex_truth !!! 102 = 3%R) as -> by reflexivity.
  assert (ex_estimate !!! 100 = 1%R) as -> by reflexivity.
  assert (ex_estimate !!! 101 = 3%R) as -> by reflexivity.
  assert (ex_estimate !!! 102 = 3%R) as -> by reflexivity.
  replace (1 - 1)%R with 0%R by lra. replace (3 - 2)%R with 1%R by lra.
  replace (3 - 3)%R with 0%R by lra.
  rewrite Rabs_R0, Rabs_R1. f_equal; f_equal.
  - f_equal. cbn. lra.
  - cbn. lra.
Qed.

(** Restricting the baseline to the weeks of the truth and of the
    estimate before the call never changes what [get_metrics] returns:
    no order of the three intersections gives another number. *)
Lemma get_metrics_baseline_order :
  ¬ ∃ truth estimate baseline : gmap Z R,
      get_metrics truth estimate
        (Some (restrict (dom truth ∩ (dom estimate ∩ dom baseline)) baseline))
      ≠ get_metrics truth estimate (Some baseline).
Proof.
  intros (truth & estimate & baseline & Hne). apply Hne. clear Hne.
  unfold get_metrics. rewrite !trim_restrict, restrict_restrict, dom_restrict.
  replace (dom estimate ∩
           (dom truth ∩ (dom estimate ∩ dom baseline) ∩ dom baseline) ∩
           (dom truth ∩ (dom estimate ∩ dom baseline)))
    with (dom truth ∩ (dom estimate ∩ dom baseline)).
  - by rewrite get_metrics_plain_restrict.
  - apply set_eq. intros w. rewrite !elem_of_intersection. tauto.
Qed.

Lemma ex_trim : trim ex_off ex_flat = ex_flat.
Proof. reflexivity. Qed.

Lemma ex_flat_self :
  get_metrics ex_flat (trim ex_off ex_flat) None =
  {| n := 2; rmse := Fin 0; mae := Fin 0; mase := None; rmsse := None |}.
Proof.
  rewrite ex_trim. unfold get_metrics.
  rewrite get_metrics_plain_self; [done|].
  intros H. apply (f_equal size) in H. discriminate H.
Defined.

Lemma ex_off_mae : mae (get_metrics_plain ex_flat ex_off) = Fin (1 / 2).
Proof.
  rewrite get_metrics_plain_eq by done.
  change (common ex_flat ex_off) with [1; 2]. cbn zeta.
  unfold errors, mean. cbn [mae fmap list_fmap length np_sum foldr].
  assert (ex_flat !!! 1 = 1%R) as -> by reflexivity.
  assert (ex_flat !!! 2 = 2%R) as -> by reflexivity.
  assert (ex_off !!! 1 = 2%R) as -> by reflexivity.
  assert (ex_off !!! 2 = 2%R) as -> by reflexivity.
  replace (2 - 1)%R with 1%R by lra. replace (2 - 2)%R with 0%R by lra.
  rewrite Rabs_R0, Rabs_R1. f_equal. cbn. lra.
Qed.

(** No exception: disjoint series give NaN, and a baseline without error
    gives an infinite skill score. *)
Lemma get_metrics_returns_nan_inf :
  get_metrics {[1 := 1%R]} {[2 := 1%R]} None =
    {| n := 0; rmse := NaN; mae := NaN; mase := None; rmsse := None |} ∧
  mae (get_metrics ex_flat (trim ex_off ex_flat) None) = Fin 0 ∧
  mase (get_metrics ex_flat ex_off (Some ex_flat)) = Some (Inf false).
Proof.
  split_and!.
  - reflexivity.
  - by rewrite ex_flat_self.
  - unfold get_metrics.
    change (get_metrics_plain ex_flat (trim ex_off ex_flat))
      with (get_metrics ex_flat (trim ex_off ex_flat) None).
    rewrite ex_flat_self. cbn [mase mae]. rewrite ex_off_mae. cbn.
    rewrite decide_True by done. rewrite decide_False by lra.
    by rewrite bool_decide_eq_false_2 by lra.
Qed.

Lemma get_metrics_degenerate_witness :
  (dom ({[1 := 1%R]} : gmap Z R) ∩ dom ({[2 := 1%R]} : gmap Z R) = ∅ ∧
   get_metrics {[1 := 1%R]} {[2 := 1%R]} (Some ex_flat) =
     {| n := 0; rmse := NaN; mae := NaN;
        mase := Some NaN; rmsse := Some NaN |}) ∧
  (mae (get_metrics ex_flat (trim ex_off ex_flat) None) = Fin 0 ∧
   ∃ q, mase (get_metrics ex_flat ex_off (Some ex_flat)) = Some q ∧
        ∀ r, q ≠ Fin r) ∧
  (rmse (get_metrics ex_flat (trim ex_off ex_flat) None) = Fin 0 ∧
   ∃ q, rmsse (get_metrics ex_flat ex_off (Some ex_flat)) = Some q ∧
        ∀ r, q ≠ Fin r).
Proof.
  split_and!.
  - reflexivity.
  - apply (get_metrics_degenerate {[1 := 1%R]} {[2 := 1%R]} ex_flat).
    reflexivity.
  - by rewrite ex_flat_self.
  - apply (get_metrics_degenerate ex_flat ex_off ex_flat).
    by rewrite ex_flat_self.
  - by rewrite ex_flat_self.
  - apply (get_metrics_degenerate ex_flat ex_off ex_flat).
    by rewrite ex_flat_self.
Defined.

(** ** Baselines *)

Lemma get_naive_nowcast_spec_witness :
  ∃ truth, get_truth ex_data "nat" = Ok truth ∧
  ∃ naive, get_naive_nowcast add_epiweeks52 ex_data "nat" = Ok naive ∧
    (∀ w, is_Some (truth !! w) →
       naive !! w = truth !! add_epiweeks52 w (-1)) ∧
    (∀ w, truth !! w = None → naive !! w = None).
Proof.
  eexists. split; [reflexivity|].
  apply (get_naive_nowcast_spec add_epiweeks52 ex_data "nat"). reflexivity.
Defined.

(** The lag is not the caller's: where the truth has the week 52 weeks
    before and the week before, with different values, the naive series
    has the value of the week before. *)
Lemma get_naive_nowcast_lag_52 :
  ∃ truth naive,
    get_truth ex_data "nat" = Ok truth ∧
    get_naive_nowcast add_epiweeks52 ex_data "nat" = Ok naive ∧
    is_Some (truth !! 201601) ∧
    truth !! add_epiweeks52 201601 (-52) = Some 4%R ∧
    naive !! 201601 = Some 2%R ∧
    naive !! 201601 ≠ truth !! add_epiweeks52 201601 (-52).
Proof.
  eexists _, _. split_and!; [reflexivity..| |reflexivity|reflexivity|].
  - by eexists.
  - intros H. assert (Some 2%R = Some 4%R) as [= ?] by exact H. lra.
Qed.


Lemma get_alternative_nowcast_spec_witness :
  ∃ truth, get_truth ex_data "nat" = Ok truth ∧
  (∀ s, s ∈ ["A"; "B"]%string →
     get_sensor ex_data s "nat" = Ok (series_of ex_data "nat" s)) ∧
  ∃ nowcast,
    get_alternative_nowcast ["A"; "B"]%string ex_data "nat" = Ok nowcast ∧
    ∀ w, let values :=
           contributions (series_of ex_data "nat" <$> ["A"; "B"]%string) w in
      (is_Some (truth !! w) → values ≠ [] →
       nowcast !! w = Some (np_median values) ∧
       is_median values (np_median values)) ∧
      (values = [] → nowcast !! w = None) ∧
      (truth !! w = None → nowcast !! w = None).
Proof.
  eexists. split; [reflexivity|]. split; [by intros s _|].
  apply (get_alternative_nowcast_spec ["A"; "B"]%string ex_data "nat").
  - reflexivity.
  - by intros s _.
Defined.

(** ** Model nowcasts *)

Lemma get_experiment_spec_witness :
  nc ex_data !! "vanilla"%string = Some ex_nc ∧
  ∃ m, get_experiment ex_data "vanilla" "vi" = Ok m ∧
    (∀ w, w < 201327 → m !! w = None) ∧
    m !! 201327 = Some 2%R.
Proof.
  split; [reflexivity|].
  destruct (get_experiment_spec ex_data "vanilla" "vi" ex_nc eq_refl)
    as (m & Hm & Hvi & _ & _ & Hlast).
  exists m. split_and!; [exact Hm|intros w Hw; by apply Hvi|].
  apply (Hlast [(201326, "vi"%string, 1%R, 1%R)]
               [(201452, "pr"%string, 3%R, 1%R);
                (201601, "nat"%string, 4%R, 1%R)] 201327 2%R 1%R).
  - reflexivity.
  - intros v' std' Hin.
    apply elem_of_cons in Hin as [[=]|Hin].
    apply elem_of_cons in Hin as [[=]|Hin].
    by apply elem_of_nil in Hin.
  - intros [_ Hlt]. lia.
  - intros [[=] _].
Defined.

Lemma get_nowcast_spec_witness :
  ∃ m, get_nowcast ex_data "vi" = Ok m ∧
    (("vi" = "vi" ∧ 201326 < 201327) ∨ ("vi" = "pr" ∧ 201326 < 201453))%string ∧
    m !! 201326 = None ∧ m !! 201327 = Some 2%R.
Proof.
  eexists. split; [reflexivity|].
  assert (H : (("vi" = "vi" ∧ 201326 < 201327) ∨
               ("vi" = "pr" ∧ 201326 < 201453))%string) by (left; split; [done|lia]).
  split; [exact H|]. split.
  - apply (proj2 (get_nowcast_spec ex_data "vi") _ 201326 eq_refl H).
  - reflexivity.
Defined.

(** ** The sensor coverage matrix *)

(** The example of two sensors over weeks 10 to 12 and 11 to 13. *)
Example get_heatmap_data_example vA10 vA11 vA12 vB11 vB12 vB13 :
  get_heatmap_data ["A"; "B"]%string range_epiweeks52
    (heat_data vA10 vA11 vA12 vB11 vB12 vB13) =
  Ok ([[vA10; vA11; vA12; (-1)%R]; [(-1)%R; vB11; vB12; vB13]],
      ["A"; "B"]%string, [10; 11; 12; 13]).
Proof. vm_compute. reflexivity. Qed.

Lemma heat_ex_sensors s :
  s ∈ ["A"; "B"]%string →
  get_sensor heat_ex s "nat" = Ok (series_of heat_ex "nat" s).
Proof. by intros _. Defined.

Lemma heat_ex_nonempty s :
  s ∈ ["A"; "B"]%string → series_of heat_ex "nat" s ≠ ∅.
Proof.
  intros Hin H. apply (f_equal size) in H.
  apply elem_of_cons in Hin as [->|Hin]; [discriminate H|].
  apply elem_of_cons in Hin as [->|Hin]; [discriminate H|].
  by apply elem_of_nil in Hin.
Defined.

Lemma get_heatmap_data_spec_witness :
  ["A"; "B"]%string ≠ [] ∧
  (∀ s, s ∈ ["A"; "B"]%string →
     get_sensor heat_ex s "nat" = Ok (series_of heat_ex "nat" s)) ∧
  (∀ s, s ∈ ["A"; "B"]%string → series_of heat_ex "nat" s ≠ ∅) ∧
  ∃ w0 w1 data weeks,
    get_heatmap_data ["A"; "B"]%string range_epiweeks52 heat_ex =
      Ok (data, ["A"; "B"]%string, weeks) ∧
    weeks = range_epiweeks52 w0 w1 true ∧
    least ["A"; "B"]%string (series_of heat_ex "nat") w0 ∧
    greatest ["A"; "B"]%string (series_of heat_ex "nat") w1 ∧
    length data = 2%nat ∧
    Forall (λ row, length row = length weeks) data ∧
    ∀ i j s w, ["A"; "B"]%string !! i = Some s → weeks !! j = Some w →
      ∃ row, data !! i = Some row ∧
             row !! j = Some (default (-1)%R (series_of heat_ex "nat" s !! w)).
Proof.
  split; [done|]. split; [exact heat_ex_sensors|].
  split; [exact heat_ex_nonempty|].
  apply (get_heatmap_data_spec ["A"; "B"]%string range_epiweeks52 heat_ex).
  - done.
  - exact heat_ex_sensors.
  - exact heat_ex_nonempty.
Defined.

Lemma get_heatmap_data_succeeds_witness :
  (["A"; "B"]%string ≠ [] ∧
   ∀ s, s ∈ ["A"; "B"]%string →
     ∃ x, get_sensor heat_ex s "nat" = Ok x ∧ x ≠ ∅) ∧
  ∃ out, get_heatmap_data ["A"; "B"]%string range_epiweeks52 heat_ex = Ok out.
Proof.
  assert (H : ["A"; "B"]%string ≠ [] ∧
    ∀ s, s ∈ ["A"; "B"]%string →
      ∃ x, get_sensor heat_ex s "nat" = Ok x ∧ x ≠ ∅).
  { split; [done|]. intros s Hin. exists (series_of heat_ex "nat" s).
    split; [by apply heat_ex_sensors|by apply heat_ex_nonempty]. }
  split; [exact H|].
  apply (get_heatmap_data_succeeds ["A"; "B"]%string range_epiweeks52 heat_ex).
  exact H.
Defined.

(** One sensor with readings and one without: the function raises. *)
Lemma get_heatmap_data_one_empty :
  (∃ x, get_sensor heat_ex "A" "nat" = Ok x ∧ is_Some (x !! 10)) ∧
  get_heatmap_data ["A"; "C"]%string range_epiweeks52 heat_ex
  = Raise ValueError.
Proof.
  split.
  - eexists. split; [reflexivity|]. by eexists.
  - reflexivity.
Qed.

(** ** The loader *)

(** A nowcast row whose last column, the standard deviation, is not a
    number makes the loader raise; one whose value column is not a number
    loads, the value kept as text. *)
Lemma load_row_last_required :
  load_row int_digits float_digits ["201501"; "nat"; "1"; "x"]%string
  = Raise ValueError ∧
  load_row int_digits float_digits ["201501"; "nat"; "x"; "1"]%string
  = Ok [Int 201501; Str "nat"; Str "x"; Float 1].
Proof. split; reflexivity. Qed.

(** * Further properties *)

(** ** The loader, row by row and file by file *)

Section LoaderMore.

Context (int_str : string → option Z) (float_str : string → option R).

Implicit Types (raw : list string) (row : list cell).

Lemma length_setitem_neg row k c : length (setitem_neg row k c) = length row.
Proof. unfold setitem_neg. apply length_insert. Qed.

(** A row that loads keeps its number of columns. *)
Theorem load_row_length raw row :
  load_row int_str float_str raw = Ok row → length row = length raw.
Proof.
  unfold load_row. destruct raw as [|s0 raw]; [done|].
  destruct (py_int int_str s0) as [week|]; [|done]. cbn [mbind res_bind].
  set (row0 := <[0%nat := Int week]> (Str <$> s0 :: raw)).
  assert (Hlen : length row0 = length (s0 :: raw)).
  { unfold row0. by rewrite length_insert, length_fmap. }
  destruct (getitem_neg row0 1) as [c|]; [|done]. cbn [mbind res_bind].
  destruct (py_float float_str c) as [x|]; [|done]. cbn [mbind res_bind].
  destruct (getitem_neg _ 2) as [c'|]; [|done]. cbn [mbind res_bind].
  destruct (py_float float_str c') as [y|[]]; intros [= <-];
    by rewrite ?length_setitem_neg.
Qed.



Lemma load_file_nil : load_file int_str float_str [] = Ok [].
Proof. done. Qed.

Lemma load_file_Forall2 rows out :
  load_file int_str float_str rows = Ok out ↔
  Forall2 (λ raw row, load_row int_str float_str raw = Ok row) rows out.
Proof.
  revert out. induction rows as [|raw rows IH]; intros out.
  - rewrite load_file_nil. split.
    + intros [= <-]. constructor.
    + by intros ->%Forall2_nil_inv_l.
  - rewrite load_file_cons. split.
    + destruct (load_row int_str float_str raw) as [row|] eqn:Hrow; [|done].
      cbn. destruct (load_file int_str float_str rows) as [out'|] eqn:Hout;
        [|done].
      intros [= <-]. constructor; [done|]. by apply IH.
    + intros (row & out' & Hrow & Hout & ->)%Forall2_cons_inv_l.
      rewrite Hrow. cbn. apply IH in Hout. by rewrite Hout.
Qed.

Lemma load_file_raise pre raw post out e :
  load_file int_str float_str pre = Ok out →
  load_row int_str float_str raw = Raise e →
  load_file int_str float_str (pre ++ raw :: post) = Raise e.
Proof.
  revert out. induction pre as [|raw' pre IH]; intros out Hpre Hraw.
  - cbn [app]. rewrite load_file_cons, Hraw. done.
  - cbn [app]. rewrite load_file_cons in Hpre |- *.
    destruct (load_row int_str float_str raw') as [row|]; [|done].
    cbn in Hpre |- *.
    destruct (load_file int_str float_str pre) as [out'|] eqn:Hout; [|done].
    by rewrite (IH out').
Qed.

(** A file loads exactly when each of its rows does, and then holds the
    loaded rows in the order of the file. *)
Theorem load_file_spec rows out :
  load_file int_str float_str rows = Ok out ↔
  length out = length rows ∧
  ∀ i raw, rows !! i = Some raw →
    ∃ row, out !! i = Some row ∧ load_row int_str float_str raw = Ok row.
Proof.
  rewrite load_file_Forall2, Forall2_same_length_lookup. split.
  - intros [Hlen H]. split; [done|]. intros i raw Hraw.
    destruct (lookup_lt_is_Some_2 out i) as [row Hrow].
    { rewrite <- Hlen. by eapply lookup_lt_Some. }
    exists row. split; [done|]. by eapply H.
  - intros [Hlen H]. split; [done|]. intros i raw row Hraw Hrow.
    destruct (H i raw Hraw) as (row' & Hrow' & Hload). congruence.
Qed.

(** The first row that raises decides the exception of the file; the
    rows after it are not read. *)
Theorem load_file_first_error pre raw post e :
  (∀ r, r ∈ pre → ∃ row, load_row int_str float_str r = Ok row) →
  load_row int_str float_str raw = Raise e →
  load_file int_str float_str (pre ++ raw :: post) = Raise e.
Proof.
  intros Hpre Hraw.
  assert (∃ out, load_file int_str float_str pre = Ok out) as [out Hout].
  { clear Hraw. induction pre as [|r pre IH]; [by eexists|].
    destruct (Hpre r) as [row Hrow]; [apply list_elem_of_here|].
    destruct IH as [out Hout].
    { intros r' Hin. apply Hpre. by apply list_elem_of_further. }
    exists (row :: out). rewrite load_file_cons, Hrow. cbn. by rewrite Hout. }
  by apply (load_file_raise pre raw post out).
Qed.

(** *** All files *)

Local Abbreviation load_step :=
  (λ (data : gmap string (list (list cell))) '(key, rows),
     loaded ← load_file int_str float_str rows;
     mret (<[key := loaded]> data)).

Lemma load_everything_cons acc key rows files :
  foldlM load_step acc ((key, rows) :: files) =
  loaded ← load_file int_str float_str rows;
  foldlM load_step (<[key := loaded]> acc) files.
Proof. cbn. by destruct (load_file int_str float_str rows). Qed.

Lemma load_everything_all acc files data :
  foldlM load_step acc files = Ok data →
  ∀ key rows, (key, rows) ∈ files →
    ∃ loaded, load_file int_str float_str rows = Ok loaded.
Proof.
  revert acc. induction files as [|[k r] files IH]; intros acc Hrun key rows Hin.
  - by apply elem_of_nil in Hin.
  - rewrite load_everything_cons in Hrun.
    destruct (load_file int_str float_str r) as [loaded|] eqn:Hr; [|done].
    cbn in Hrun. apply elem_of_cons in Hin as [[= -> ->]|Hin]; [by eexists|].
    by apply (IH _ Hrun key rows).
Qed.

Lemma load_everything_Ok acc files :
  (∀ key rows, (key, rows) ∈ files →
     ∃ loaded, load_file int_str float_str rows = Ok loaded) →
  ∃ data,
    foldlM load_step acc files = Ok data.
Proof.
  revert acc. induction files as [|[k r] files IH]; intros acc Hall.
  - by eexists.
  - rewrite load_everything_cons.
    destruct (Hall k r) as [loaded Hl]; [apply list_elem_of_here|].
    rewrite Hl. cbn.
    apply IH. intros key rows Hin. apply (Hall key).
    by apply list_elem_of_further.
Qed.

Lemma load_everything_sound acc files data key loaded :
  foldlM load_step acc files = Ok data →
  data !! key = Some loaded →
  acc !! key = Some loaded ∨
  ∃ rows, (key, rows) ∈ files ∧ load_file int_str float_str rows = Ok loaded.
Proof.
  revert acc. induction files as [|[k r] files IH]; intros acc Hrun Hkey.
  - injection Hrun as <-. by left.
  - rewrite load_everything_cons in Hrun.
    destruct (load_file int_str float_str r) as [l|] eqn:Hr; [|done].
    cbn in Hrun. destruct (IH _ Hrun Hkey) as [Hacc|(rows & Hin & Hrows)].
    + destruct (decide (k = key)) as [->|Hne].
      * rewrite lookup_insert_eq in Hacc. injection Hacc as ->.
        right. exists r. split; [apply list_elem_of_here|done].
      * rewrite lookup_insert_ne in Hacc by done. by left.
    + right. exists rows. split; [by apply list_elem_of_further|done].
Qed.

Lemma load_everything_notin acc files data key :
  foldlM load_step acc files = Ok data →
  key ∉ files.*1 → data !! key = acc !! key.
Proof.
  revert acc. induction files as [|[k r] files IH]; intros acc Hrun Hnotin.
  - by injection Hrun as <-.
  - rewrite load_everything_cons in Hrun.
    destruct (load_file int_str float_str r) as [l|] eqn:Hr; [|done].
    cbn in Hrun. rewrite fmap_cons, not_elem_of_cons in Hnotin.
    destruct Hnotin as [Hne Hnotin]. cbn in Hne.
    rewrite (IH _ Hrun Hnotin). by rewrite lookup_insert_ne.
Qed.

Lemma load_everything_in acc files data key rows :
  foldlM load_step acc files = Ok data →
  NoDup files.*1 → (key, rows) ∈ files →
  ∃ loaded, load_file int_str float_str rows = Ok loaded ∧
            data !! key = Some loaded.
Proof.
  revert acc. induction files as [|[k r] files IH]; intros acc Hrun Hnd Hin.
  - by apply elem_of_nil in Hin.
  - rewrite load_everything_cons in Hrun.
    destruct (load_file int_str float_str r) as [l|] eqn:Hr; [|done].
    cbn in Hrun. rewrite fmap_cons in Hnd. apply NoDup_cons in Hnd as [Hk Hnd].
    cbn in Hk.
    apply elem_of_cons in Hin as [[= -> ->]|Hin].
    + exists l. split; [done|].
      rewrite (load_everything_notin _ _ _ _ Hrun Hk).
      apply lookup_insert_eq.
    + by apply (IH _ Hrun).
Qed.

(** The load is all or nothing: [load_everything] returns exactly when
    every file loads, so a single row that does not load, in any file,
    leaves no data at all. *)
Theorem load_everything_all_or_nothing files :
  (∃ data, load_everything int_str float_str files = Ok data) ↔
  ∀ key rows, (key, rows) ∈ files →
    ∃ loaded, load_file int_str float_str rows = Ok loaded.
Proof.
  unfold load_everything. split.
  - intros [data Hrun]. by apply (load_everything_all ∅ files data).
  - apply load_everything_Ok.
Qed.

(** What a load returns: every entry of the data is the loaded rows of a
    file under its key, and when the keys of the files are distinct, as
    file names are, every file is in the data under its key. *)
Theorem load_everything_spec files data :
  load_everything int_str float_str files = Ok data →
  (∀ key loaded, data !! key = Some loaded →
     ∃ rows, (key, rows) ∈ files ∧
             load_file int_str float_str rows = Ok loaded) ∧
  (NoDup files.*1 →
   ∀ key rows, (key, rows) ∈ files →
     ∃ loaded, load_file int_str float_str rows = Ok loaded ∧
               data !! key = Some loaded).
Proof.
  unfold load_everything. intros Hrun. split.
  - intros key loaded Hkey.
    destruct (load_everything_sound _ _ _ _ _ Hrun Hkey) as [Hacc|H]; [|done].
    by rewrite lookup_empty in Hacc.
  - intros Hnd key rows Hin. by apply (load_everything_in ∅ files).
Qed.

End LoaderMore.

(** ** The truth and the sensor readings *)

Section ExtractorsMore.

Implicit Types (result m : gmap Z R).

Lemma truth_loop_snoc loc result (rows : list (Z * string * R)) w p v :
  foldl (λ result '(week, place, value),
           if decide (place = loc) then <[week := value]> result
           else result) result (rows ++ [(w, p, v)]) =
  if decide (p = loc)
  then <[w := v]> (foldl (λ result '(week, place, value),
                            if decide (place = loc)
                            then <[week := value]> result
                            else result) result rows)
  else foldl (λ result '(week, place, value),
                if decide (place = loc) then <[week := value]> result
                else result) result rows.
Proof. by rewrite foldl_app. Qed.

Lemma truth_loop_sound loc result (rows : list (Z * string * R)) w v :
  foldl (λ result '(week, place, value),
           if decide (place = loc) then <[week := value]> result
           else result) result rows !! w = Some v →
  result !! w = Some v ∨ (w, loc, v) ∈ rows.
Proof.
  induction rows as [|[[w' p] v'] rows IH] using rev_ind; [by left|].
  rewrite truth_loop_snoc. case_decide as Hp.
  - subst p. destruct (decide (w' = w)) as [->|Hne].
    + rewrite lookup_insert_eq. intros [= ->]. right.
      apply elem_of_app. right. by apply list_elem_of_singleton.
    + rewrite lookup_insert_ne by done. intros H.
      destruct (IH H) as [?|?]; [by left|right].
      apply elem_of_app. by left.
  - intros H. destruct (IH H) as [?|?]; [by left|right].
    apply elem_of_app. by left.
Qed.

Lemma truth_loop_last loc result (pre post : list (Z * string * R)) w v :
  (∀ v', (w, loc, v') ∉ post) →
  foldl (λ result '(week, place, value),
           if decide (place = loc) then <[week := value]> result
           else result) result (pre ++ (w, loc, v) :: post) !! w = Some v.
Proof.
  intros Hpost. induction post as [|[[w' p] v'] post IH] using rev_ind.
  - rewrite truth_loop_snoc, decide_True by done. apply lookup_insert_eq.
  - rewrite app_comm_cons, app_assoc, truth_loop_snoc.
    assert (IH' : foldl (λ result '(week, place, value),
                     if decide (place = loc) then <[week := value]> result
                     else result) result (pre ++ (w, loc, v) :: post) !! w
                  = Some v).
    { apply IH. intros v0 Hin. apply (Hpost v0). apply elem_of_app. by left. }
    case_decide as Hp; [|done]. subst p.
    rewrite lookup_insert_ne; [done|].
    intros ->. apply (Hpost v').
    apply elem_of_app. right. by apply list_elem_of_singleton.
Qed.

(** [get_truth] raises [KeyError] when the table was not loaded and
    nothing else; on a loaded table every value it returns is the value
    of a stored row of that week and location, and the last stored row of
    a week and location gives the value at the week. *)
Theorem get_truth_spec d loc :
  match fluview d with
  | None => get_truth d loc = Raise KeyError
  | Some rows =>
      ∃ m, get_truth d loc = Ok m ∧
        (∀ w v, m !! w = Some v → (w, loc, v) ∈ rows) ∧
        (∀ pre post w v,
           rows = pre ++ (w, loc, v) :: post →
           (∀ v', (w, loc, v') ∉ post) → m !! w = Some v)
  end.
Proof.
  unfold get_truth. destruct (fluview d) as [rows|]; [|done].
  eexists. split; [done|]. split.
  - intros w v Hm. by destruct (truth_loop_sound _ _ _ _ _ Hm).
  - intros pre post w v -> Hpost. by apply truth_loop_last.
Qed.

Local Abbreviation sensor_step name loc :=
  (λ (result : gmap Z R) '(week, sensor, place, value),
     if decide (sensor = name ∧ place = loc)
     then <[week := value]> result
     else result).

Lemma sensor_loop_sound name loc result
    (rows : list (Z * string * string * R)) w v :
  foldl (sensor_step name loc) result rows !! w = Some v →
  result !! w = Some v ∨ (w, name, loc, v) ∈ rows.
Proof.
  induction rows as [|[[[w' n] p] v'] rows IH] using rev_ind; [by left|].
  rewrite foldl_app. cbn. case_decide as Hp.
  - destruct Hp as [-> ->]. destruct (decide (w' = w)) as [->|Hne].
    + rewrite lookup_insert_eq. intros [= ->]. right.
      apply elem_of_app. right. by apply list_elem_of_singleton.
    + rewrite lookup_insert_ne by done. intros H.
      destruct (IH H) as [?|?]; [by left|right].
      apply elem_of_app. by left.
  - intros H. destruct (IH H) as [?|?]; [by left|right].
    apply elem_of_app. by left.
Qed.

Lemma sensor_loop_last name loc result
    (pre post : list (Z * string * string * R)) w v :
  (∀ v', (w, name, loc, v') ∉ post) →
  foldl (sensor_step name loc) result (pre ++ (w, name, loc, v) :: post) !! w
  = Some v.
Proof.
  intros Hpost. induction post as [|[[[w' n] p] v'] post IH] using rev_ind.
  - rewrite foldl_app. cbn. rewrite decide_True by done.
    apply lookup_insert_eq.
  - rewrite app_comm_cons, app_assoc, foldl_app. cbn.
    assert (IH' : foldl (sensor_step name loc) result
                    (pre ++ (w, name, loc, v) :: post) !! w = Some v).
    { apply IH. intros v0 Hin. apply (Hpost v0). apply elem_of_app. by left. }
    case_decide as Hp; [|done]. destruct Hp as [-> ->].
    rewrite lookup_insert_ne; [done|].
    intros ->. apply (Hpost v').
    apply elem_of_app. right. by apply list_elem_of_singleton.
Qed.

(** [get_sensor] raises [KeyError] when the sensor table was not loaded
    and nothing else; on a loaded table it reads the rows of the sensor at
    the location only, the last stored row of a week giving the value. *)
Theorem get_sensor_spec d name loc :
  match sensors d with
  | None => get_sensor d name loc = Raise KeyError
  | Some rows =>
      ∃ m, get_sensor d name loc = Ok m ∧
        (∀ w v, m !! w = Some v → (w, name, loc, v) ∈ rows) ∧
        (∀ pre post w v,
           rows = pre ++ (w, name, loc, v) :: post →
           (∀ v', (w, name, loc, v') ∉ post) → m !! w = Some v)
  end.
Proof.
  unfold get_sensor. destruct (sensors d) as [rows|]; [|done].
  eexists. split; [done|]. split.
  - intros w v Hm. by destruct (sensor_loop_sound _ _ _ _ _ _ Hm).
  - intros pre post w v -> Hpost. by apply sensor_loop_last.
Qed.

(** The preliminary truth of one lag never reads a row stored for
    another lag: on a table whose rows are all of the lag [lag'], the
    series of any other lag is empty. *)
Theorem get_preliminary_truth_other_lag rows lag lag' :
  lag ≠ lag' →
  Forall (λ row, row.1.2 = "nat_" +:+ pretty lag') rows →
  get_preliminary_truth (Some rows) lag = Ok ∅.
Proof.
  intros Hne Hrows. unfold get_preliminary_truth. cbn. f_equal.
  induction rows as [|[[w p] v] rows IH] using rev_ind; [done|].
  apply Forall_app in Hrows as [Hrows Hp].
  apply Forall_inv in Hp. cbn in Hp.
  rewrite foldl_app. cbn. rewrite decide_False; [by apply IH|].
  rewrite Hp. intros Heq. apply Hne.
  apply (inj pretty). by apply (inj (String.append "nat_")) in Heq.
Qed.

(** On the rows of its own lag the preliminary truth is the series of
    those rows: every value returned is stored at the place of the lag,
    and the last stored row of a week at that place gives its value. *)
Theorem get_preliminary_truth_spec prelim lag :
  match prelim with
  | None => get_preliminary_truth prelim lag = Raise KeyError
  | Some rows =>
      ∃ m, get_preliminary_truth prelim lag = Ok m ∧
        (∀ w v, m !! w = Some v → (w, "nat_" +:+ pretty lag, v) ∈ rows) ∧
        (∀ pre post w v,
           rows = pre ++ (w, "nat_" +:+ pretty lag, v) :: post →
           (∀ v', (w, "nat_" +:+ pretty lag, v') ∉ post) →
           m !! w = Some v)
  end.
Proof.
  unfold get_preliminary_truth. destruct prelim as [rows|]; [|done].
  eexists. split; [done|]. split.
  - intros w v Hm. by destruct (truth_loop_sound _ _ _ _ _ Hm).
  - intros pre post w v -> Hpost. by apply truth_loop_last.
Qed.

End ExtractorsMore.


(** ** The naive baseline and the weeks it loses *)

Section NaiveMore.

Context (add_epiweeks : Z → Z → Z).

Lemma get_naive_nowcast_lookup d loc truth :
  get_truth d loc = Ok truth →
  ∃ naive, get_naive_nowcast add_epiweeks d loc = Ok naive ∧
    ∀ w, naive !! w =
         if decide (is_Some (truth !! w))
         then truth !! add_epiweeks w (-1) else None.
Proof.
  intros Ht. unfold get_naive_nowcast. rewrite Ht. cbn.
  eexists. split; [done|]. intros w. rewrite naive_loop_lookup.
  destruct (decide (is_Some (truth !! w))) as [Hw|Hw].
  - rewrite decide_True by by apply elem_of_keys.
    by destruct (truth !! add_epiweeks w (-1)).
  - rewrite decide_False; [done|]. by rewrite elem_of_keys.
Qed.

(** When the week before a week is an earlier week, the naive series
    has nothing at the earliest week of the truth, and so has fewer
    weeks than a nonempty truth. *)
Theorem get_naive_nowcast_earliest d loc truth :
  get_truth d loc = Ok truth →
  (∀ w, is_Some (truth !! w) → add_epiweeks w (-1) < w) →
  ∃ naive, get_naive_nowcast add_epiweeks d loc = Ok naive ∧
    (∀ w, is_Some (truth !! w) →
       (∀ w', is_Some (truth !! w') → w ≤ w') → naive !! w = None) ∧
    (truth ≠ ∅ → (size naive < size truth)%nat).
Proof.
  intros Ht Hadd.
  destruct (get_naive_nowcast_lookup d loc truth Ht) as (naive & Hrun & Hlook).
  exists naive. split; [done|].
  assert (Hmin : ∀ w, is_Some (truth !! w) →
            (∀ w', is_Some (truth !! w') → w ≤ w') → naive !! w = None).
  { intros w Hw Hleast. rewrite Hlook, decide_True by done.
    destruct (truth !! add_epiweeks w (-1)) as [v|] eqn:E; [|done].
    specialize (Hleast (add_epiweeks w (-1)) (mk_is_Some _ _ E)).
    specialize (Hadd w Hw). lia. }
  split; [done|]. intros Hne.
  rewrite <- !size_dom. apply subset_size.
  destruct (minimal_exists_elem_of_L Z.le (dom truth)) as (w0 & Hw0 & Hminimal).
  { intros Hdom. by apply dom_empty_inv_L in Hdom. }
  apply elem_of_dom in Hw0. split.
  - intros w Hw. apply elem_of_dom in Hw. apply elem_of_dom.
    rewrite Hlook in Hw. by case_decide; [|destruct Hw].
  - intros Hsub. specialize (Hsub w0). rewrite !elem_of_dom in Hsub.
    specialize (Hsub Hw0). rewrite Hmin in Hsub; [by destruct Hsub|done|].
    intros w' Hw'. apply elem_of_dom in Hw'.
    destruct (Z.le_ge_cases w0 w') as [?|Hge]; [done|].
    apply (Hminimal w' Hw' Hge).
Qed.

End NaiveMore.

(** ** The sensor-median baseline: bounds, agreement and errors *)

Section MedianMore.

Implicit Types (values s : list R).




End MedianMore.

Section EnsembleMore.

Context (SENSORS : list string).


Lemma get_alternative_nowcast_lookup d loc truth
    (series : string → gmap Z R) :
  get_truth d loc = Ok truth →
  (∀ s, s ∈ SENSORS → get_sensor d s loc = Ok (series s)) →
  ∃ nowcast, get_alternative_nowcast SENSORS d loc = Ok nowcast ∧
    ∀ w, nowcast !! w =
         if decide (is_Some (truth !! w)) then
           match contributions (series <$> SENSORS) w with
           | [] => None
           | _ => Some (np_median (contributions (series <$> SENSORS) w))
           end
         else None.
Proof.
  intros Ht Hs.
  exists (foldl (λ nowcast ew,
       match contributions (series <$> SENSORS) ew with
       | [] => nowcast
       | _ => <[ew := np_median (contributions (series <$> SENSORS) ew)]>
                nowcast
       end) ∅ (keys truth)).
  split.
  - unfold get_alternative_nowcast.
    destruct (sensors_loop d loc series SENSORS ∅ Hs) as (m & -> & Hm).
    cbn [mbind res_bind]. rewrite Ht. cbn [mbind res_bind mret res_ret].
    f_equal. apply foldl_ext_in. intros nowcast ew _.
    assert (foldl (λ values sensor,
             match (m !!! sensor : gmap Z R) !! ew with
             | Some v => values ++ [v]
             | None => values
             end) [] SENSORS = contributions (series <$> SENSORS) ew) as ->;
      [|done].
    rewrite contributions_fmap.
    rewrite <- (app_nil_l (omap _ _)), <- values_loop.
    apply foldl_ext_in. intros values s Hin.
    assert (m !!! s = series s) as ->; [|done].
    apply lookup_total_correct. rewrite Hm. by rewrite decide_True.
  - intros w. rewrite median_loop_lookup.
    destruct (decide (is_Some (truth !! w))) as [Hw|Hw].
    + rewrite decide_True by by apply elem_of_keys.
      by destruct (contributions _ w).
    + rewrite decide_False; [done|]. by rewrite elem_of_keys.
Qed.



Lemma get_alternative_nowcast_no_sensors names d loc :
  sensors d = None → names ≠ [] →
  get_alternative_nowcast names d loc = Raise KeyError.
Proof.
  intros Hs Hne. unfold get_alternative_nowcast.
  destruct names as [|s names]; [done|].
  cbn. unfold get_sensor. by rewrite Hs.
Qed.

Lemma get_alternative_nowcast_no_truth names d loc :
  fluview d = None →
  (∀ s, s ∈ names → get_sensor d s loc = Ok (series_of d loc s)) →
  get_alternative_nowcast names d loc = Raise KeyError.
Proof.
  intros Hf Hs. unfold get_alternative_nowcast.
  destruct (sensors_loop d loc (series_of d loc) names ∅ Hs) as (m & -> & _).
  cbn [mbind res_bind]. unfold get_truth. by rewrite Hf.
Qed.

Lemma get_sensor_series_of d loc names :
  names = [] ∨ is_Some (sensors d) →
  ∀ s, s ∈ names → get_sensor d s loc = Ok (series_of d loc s).
Proof.
  intros [->|[rows Hrows]] s Hin; [by apply elem_of_nil in Hin|].
  unfold series_of, get_sensor. by rewrite Hrows.
Qed.

(** [get_alternative_nowcast] raises nothing but [KeyError], and
    returns exactly when the truth table is loaded and the sensor table
    is loaded or no sensor is registered; without a registered sensor the
    series it returns is empty. *)
Theorem get_alternative_nowcast_errors d loc :
  ((∃ nowcast, get_alternative_nowcast SENSORS d loc = Ok nowcast) ↔
   (SENSORS = [] ∨ is_Some (sensors d)) ∧ is_Some (fluview d)) ∧
  (∀ e, get_alternative_nowcast SENSORS d loc = Raise e → e = KeyError) ∧
  (SENSORS = [] →
   ∀ nowcast, get_alternative_nowcast SENSORS d loc = Ok nowcast →
     nowcast = ∅).
Proof.
  assert (Hcases :
    ((SENSORS = [] ∨ is_Some (sensors d)) ∧ is_Some (fluview d) ∧
     ∃ truth nowcast,
       get_truth d loc = Ok truth ∧
       get_alternative_nowcast SENSORS d loc = Ok nowcast ∧
       ∀ w, nowcast !! w =
         if decide (is_Some (truth !! w)) then
           match contributions (series_of d loc <$> SENSORS) w with
           | [] => None
           | _ => Some (np_median
                          (contributions (series_of d loc <$> SENSORS) w))
           end
         else None) ∨
    (¬ ((SENSORS = [] ∨ is_Some (sensors d)) ∧ is_Some (fluview d)) ∧
     get_alternative_nowcast SENSORS d loc = Raise KeyError)).
  { destruct (decide (SENSORS = [] ∨ is_Some (sensors d))) as [Hs|Hs].
    - destruct (fluview d) as [rows|] eqn:Hf.
      + left. split; [done|]. split; [done|].
        assert (∃ truth, get_truth d loc = Ok truth) as [truth Ht].
        { unfold get_truth. rewrite Hf. by eexists. }
        destruct (get_alternative_nowcast_lookup d loc truth _ Ht
                    (get_sensor_series_of d loc SENSORS Hs))
          as (nowcast & Hrun & Hlook).
        by exists truth, nowcast.
      + right. split; [by intros [_ []]|].
        apply get_alternative_nowcast_no_truth; [done|].
        by apply get_sensor_series_of.
    - right. split; [tauto|].
      apply get_alternative_nowcast_no_sensors.
      + destruct (sensors d) eqn:E; [|done]. destruct Hs. by right.
      + intros Hnil. destruct Hs. by left. }
  split_and!.
  - split.
    + intros [nowcast Hrun].
      destruct Hcases as [(? & ? & _)|[_ Hraise]]; [done|congruence].
    + intros Hok.
      destruct Hcases as [(_ & _ & truth & nowcast & _ & Hrun & _)|[Hno _]];
        [by exists nowcast|done].
  - intros e Hrun.
    destruct Hcases as [(_ & _ & truth & nowcast & _ & Hrun' & _)|[_ Hraise]];
      congruence.
  - intros Hempty nowcast Hrun.
    destruct Hcases as [(_ & _ & truth & nowcast' & _ & Hrun' & Hlook)|[_ Hr]];
      [|congruence].
    assert (nowcast' = nowcast) as -> by congruence.
    apply map_eq. intros w. rewrite Hlook, lookup_empty.
    case_decide; [|done]. by rewrite Hempty.
Qed.

End EnsembleMore.

(** ** Metrics: symmetry, order, zero error and locality *)

Section MetricsMore.

Implicit Types (truth estimate nowcast naive : gmap Z R) (l : list R).

Lemma common_comm (x y : gmap Z R) : common x y = common y x.
Proof. unfold common. by rewrite (comm_L (∩)). Qed.

Lemma np_abs_sub_comm (a b : list R) :
  np_abs (np_sub a b) = np_abs (np_sub b a).
Proof.
  revert b. induction a as [|x a IH]; intros [|y b]; try done.
  cbn. f_equal; [apply Rabs_minus_sym|apply IH].
Qed.

Lemma np_square_sub_comm (a b : list R) :
  np_square (np_sub a b) = np_square (np_sub b a).
Proof.
  revert b. induction a as [|x a IH]; intros [|y b]; try done.
  cbn. f_equal; [lra|apply IH].
Qed.

Lemma get_metrics_plain_comm truth estimate :
  get_metrics_plain truth estimate = get_metrics_plain estimate truth.
Proof.
  unfold get_metrics_plain. cbn zeta.
  rewrite (common_comm estimate truth).
  by rewrite np_abs_sub_comm, np_square_sub_comm.
Qed.

(** Without a baseline the metrics do not tell the truth from the
    estimate: exchanging the two series gives the same [n], [rmse] and
    [mae]. *)
Theorem get_metrics_symmetric truth estimate :
  get_metrics truth estimate None = get_metrics estimate truth None.
Proof. apply get_metrics_plain_comm. Qed.

(** *** The mean absolute error is at most the root mean square error *)








(** *** Zero error *)





(** *** Only the shared weeks count *)

(** The metrics read the two series at their shared weeks only: two
    pairs of series with the same shared weeks and the same values there
    have the same metrics, whatever they hold elsewhere. *)
Theorem get_metrics_local truth estimate truth' estimate' :
  dom truth ∩ dom estimate = dom truth' ∩ dom estimate' →
  (∀ w, w ∈ dom truth ∩ dom estimate →
     truth !! w = truth' !! w ∧ estimate !! w = estimate' !! w) →
  get_metrics truth estimate None = get_metrics truth' estimate' None.
Proof.
  intros Hdom Hsame. unfold get_metrics, get_metrics_plain. cbn zeta.
  assert (HW : common truth' estimate' = common truth estimate).
  { unfold common. by rewrite Hdom. }
  rewrite HW.
  assert (Ha : (λ ew, truth' !!! ew) <$> common truth estimate =
               (λ ew, truth !!! ew) <$> common truth estimate).
  { apply list_fmap_ext. intros i w Hw.
    apply list_elem_of_lookup_2 in Hw.
    rewrite !lookup_total_alt. destruct (Hsame w) as [-> _]; [|done].
    apply elem_of_common in Hw. apply elem_of_intersection.
    by rewrite !elem_of_dom. }
  assert (Hb : (λ ew, estimate' !!! ew) <$> common truth estimate =
               (λ ew, estimate !!! ew) <$> common truth estimate).
  { apply list_fmap_ext. intros i w Hw.
    apply list_elem_of_lookup_2 in Hw.
    rewrite !lookup_total_alt. destruct (Hsame w) as [_ ->]; [|done].
    apply elem_of_common in Hw. apply elem_of_intersection.
    by rewrite !elem_of_dom. }
  by rewrite Ha, Hb.
Qed.

(** *** Baselines *)


Lemma np_div_nan (q : float64) : np_div q NaN = NaN.
Proof. by destruct q. Qed.


(** A baseline that shares no week with the truth and the estimate
    together gives no skill score: [mase] and [rmsse] are NaN, also when
    the errors of the estimate are finite. *)
Theorem get_metrics_baseline_disjoint truth estimate baseline :
  dom truth ∩ (dom estimate ∩ dom baseline) = ∅ →
  mase (get_metrics truth estimate (Some baseline)) = Some NaN ∧
  rmsse (get_metrics truth estimate (Some baseline)) = Some NaN.
Proof.
  intros Hdisjoint. unfold get_metrics. cbn [mase rmsse].
  rewrite get_metrics_plain_empty with (nowcast := trim estimate baseline).
  - cbn. by rewrite !np_div_nan.
  - rewrite trim_restrict, dom_restrict.
    rewrite <- (assoc_L (∩) (dom estimate)), (idemp_L (∩)). done.
Qed.

End MetricsMore.

(** ** The sensor coverage matrix: its exceptions and its sentinel *)

Section HeatmapMore.

Context (SENSORS : list string) (range_epiweeks : Z → Z → bool → list Z).

Lemma bounds_loop_empty d (series : string → gmap Z R) names acc :
  (∀ s, s ∈ names → get_sensor d s "nat" = Ok (series s)) →
  (∃ s, s ∈ names ∧ series s = ∅) →
  foldlM (λ '(w0s, w1s) sensor,
            x ← get_sensor d sensor "nat";
            lo ← py_min (keys x);
            hi ← py_max (keys x);
            mret (w0s ++ [lo], w1s ++ [hi]))
         acc names = Raise ValueError.
Proof.
  revert acc. induction names as [|s names IH]; intros [w0s w1s] Hs Hempty.
  - destruct Hempty as (s & Hin & _). by apply elem_of_nil in Hin.
  - cbn. rewrite Hs by apply list_elem_of_here. cbn.
    destruct (decide (series s = ∅)) as [->|Hne].
    + by rewrite (proj2 (keys_nil ∅)).
    + assert (Hk : keys (series s) ≠ []) by by rewrite keys_nil.
      destruct (py_min_is_Ok _ Hk) as [lo ->].
      destruct (py_max_is_Ok _ Hk) as [hi ->]. cbn.
      apply IH.
      * intros s' Hin. apply Hs. by apply list_elem_of_further.
      * destruct Hempty as (s' & Hin & Hs').
        apply elem_of_cons in Hin as [->|Hin]; [done|]. by exists s'.
Qed.

Lemma get_heatmap_data_no_table names d :
  sensors d = None → names ≠ [] →
  get_heatmap_data names range_epiweeks d = Raise KeyError.
Proof.
  intros Hs Hne. unfold get_heatmap_data.
  destruct names as [|s names]; [done|].
  cbn. unfold get_sensor. by rewrite Hs.
Qed.

Lemma get_heatmap_data_empty_sensor names d :
  is_Some (sensors d) →
  (∃ s, s ∈ names ∧ get_sensor d s "nat" = Ok ∅) →
  get_heatmap_data names range_epiweeks d = Raise ValueError.
Proof.
  intros Hs (s & Hin & Hempty). unfold get_heatmap_data.
  rewrite (bounds_loop_empty d (series_of d "nat")); [done| |].
  - apply get_sensor_series_of. by right.
  - exists s. split; [done|]. unfold series_of. by rewrite Hempty.
Qed.

(** The exceptions of [get_heatmap_data]: [KeyError] exactly when a
    sensor is registered and the sensor table is not loaded;
    [ValueError] exactly when no sensor is registered, or the table is
    loaded and a registered sensor has no reading at "nat"; never
    [IndexError]. *)
Theorem get_heatmap_data_errors d :
  (get_heatmap_data SENSORS range_epiweeks d = Raise KeyError ↔
   sensors d = None ∧ SENSORS ≠ []) ∧
  (get_heatmap_data SENSORS range_epiweeks d = Raise ValueError ↔
   SENSORS = [] ∨
   (is_Some (sensors d) ∧
    ∃ s, s ∈ SENSORS ∧ get_sensor d s "nat" = Ok ∅)) ∧
  get_heatmap_data SENSORS range_epiweeks d ≠ Raise IndexError.
Proof.
  assert (Hcases :
    (SENSORS = [] ∧
     get_heatmap_data SENSORS range_epiweeks d = Raise ValueError) ∨
    (SENSORS ≠ [] ∧ sensors d = None ∧
     get_heatmap_data SENSORS range_epiweeks d = Raise KeyError) ∨
    (SENSORS ≠ [] ∧ is_Some (sensors d) ∧
     (∃ s, s ∈ SENSORS ∧ get_sensor d s "nat" = Ok ∅) ∧
     get_heatmap_data SENSORS range_epiweeks d = Raise ValueError) ∨
    (SENSORS ≠ [] ∧ is_Some (sensors d) ∧
     (¬ ∃ s, s ∈ SENSORS ∧ get_sensor d s "nat" = Ok ∅) ∧
     ∃ out, get_heatmap_data SENSORS range_epiweeks d = Ok out)).
  { destruct (decide (SENSORS = [])) as [Hnil|Hnil].
    { left. split; [done|]. by rewrite Hnil. }
    right. destruct (sensors d) as [rows|] eqn:Hrows.
    2:{ left. split; [done|]. split; [done|].
        by apply get_heatmap_data_no_table. }
    right.
    assert (Hs : ∀ s, s ∈ SENSORS →
              get_sensor d s "nat" = Ok (series_of d "nat" s)).
    { apply get_sensor_series_of. right. by rewrite Hrows. }
    destruct (decide (Exists (λ s, size (series_of d "nat" s) = 0%nat)
                        SENSORS)) as [Hex|Hex].
    - left. split; [done|]. split; [done|].
      apply Exists_exists in Hex as (s & Hin & Hsize).
      apply map_size_empty_iff in Hsize.
      assert (∃ s, s ∈ SENSORS ∧ get_sensor d s "nat" = Ok ∅) as Hempty.
      { exists s. split; [done|]. by rewrite Hs, Hsize. }
      split; [done|]. apply get_heatmap_data_empty_sensor; [|done].
      by rewrite Hrows.
    - right. split; [done|]. split; [done|]. split.
      + intros (s & Hin & Hempty). apply Hex, Exists_exists.
        exists s. split; [done|]. unfold series_of. by rewrite Hempty.
      + destruct (get_heatmap_data_run SENSORS range_epiweeks d
                    (series_of d "nat") Hnil Hs)
          as (w0 & w1 & _ & _ & Hrun).
        * intros s Hin Hempty. apply Hex, Exists_exists.
          exists s. split; [done|]. by rewrite Hempty.
        * by eexists. }
  split_and!.
  - split.
    + intros Hrun.
      destruct Hcases as [[_ H]|[(? & ? & _)|[(_ & _ & _ & H)|(_ & _ & _ & [out H])]]];
        [congruence|done|congruence|congruence].
    + intros [Hrows Hnil].
      destruct Hcases as [[? _]|[(_ & _ & H)|[(_ & [? Hs] & _)|(_ & [? Hs] & _)]]];
        [done|done|congruence|congruence].
  - split.
    + intros Hrun.
      destruct Hcases as [[? _]|[(_ & _ & H)|[(_ & ? & ? & _)|(_ & _ & _ & [out H])]]];
        [by left|congruence|by right|congruence].
    + intros [Hnil|[Hrows Hempty]].
      * destruct Hcases as [[_ H]|[(? & _)|[(? & _)|(? & _)]]]; done.
      * destruct Hcases as [[_ H]|[(_ & Hnone & _)|[(_ & _ & _ & H)|(_ & _ & Hno & _)]]];
          [done| |done|done].
        destruct Hrows as [? Hrows]. congruence.
  - intros Hrun.
    destruct Hcases as [[_ H]|[(_ & _ & H)|[(_ & _ & _ & H)|(_ & _ & _ & [out H])]]];
      congruence.
Qed.

(** When no stored reading is negative, a negative entry of the matrix
    means exactly that the sensor of the row has no reading at the week
    of the column. *)
Theorem get_heatmap_data_sentinel d (series : string → gmap Z R) :
  SENSORS ≠ [] →
  (∀ s, s ∈ SENSORS → get_sensor d s "nat" = Ok (series s)) →
  (∀ s, s ∈ SENSORS → series s ≠ ∅) →
  (∀ s w v, s ∈ SENSORS → series s !! w = Some v → (0 <= v)%R) →
  ∃ data weeks,
    get_heatmap_data SENSORS range_epiweeks d = Ok (data, SENSORS, weeks) ∧
    ∀ i j s w row x,
      SENSORS !! i = Some s → weeks !! j = Some w →
      data !! i = Some row → row !! j = Some x →
      ((x < 0)%R ↔ series s !! w = None).
Proof.
  intros Hnil Hs Hne Hpos.
  destruct (get_heatmap_data_run SENSORS range_epiweeks d series Hnil Hs Hne)
    as (w0 & w1 & _ & _ & Hrun).
  eexists _, _. split; [exact Hrun|].
  intros i j s w row x Hi Hj Hrow Hx.
  rewrite list_lookup_fmap, Hi in Hrow. injection Hrow as <-.
  rewrite list_lookup_fmap, Hj in Hx. injection Hx as <-.
  destruct (series s !! w) as [v|] eqn:E; cbn.
  - split; [|done]. intros Hlt.
    pose proof (Hpos s w v (list_elem_of_lookup_2 _ _ _ Hi) E). lra.
  - split; [done|]. intros _. lra.
Qed.

End HeatmapMore.

(** ** The database wrapper *)

Section DatabaseMore.

Import Database.

Context (user password : string).

Lemma py_round_near (x : R) : (Rabs (x - IZR (py_round x)) <= 1 / 2)%R.
Proof.
  unfold py_round. cbn zeta. pose proof (Zfloor_bound x) as [Hlo Hhi].
  repeat case_decide; try destruct (Z.even (Zfloor x));
    rewrite ?plus_IZR; apply Rabs_le; lra.
Qed.

Lemma Rabs_bound (y b : R) : (Rabs y <= b)%R → (- b <= y <= b)%R.
Proof.
  intros Hy. pose proof (Rle_abs y) as H1. pose proof (Rle_abs (- y)) as H2.
  rewrite Rabs_Ropp in H2. lra.
Qed.

Lemma py_round_nonneg (x : R) : (0 <= x)%R → 0 ≤ py_round x.
Proof.
  intros Hx. pose proof (py_round_near x) as Hnear.
  apply Rabs_bound in Hnear. apply le_IZR.
  destruct (Z_lt_le_dec (py_round x) 0) as [Hneg|Hpos].
  - assert (py_round x ≤ -1) as Hle by lia. apply IZR_le in Hle. lra.
  - by apply IZR_le.
Qed.

Lemma py_round_lt (x : R) (k : Z) : (x < IZR k - 1 / 2)%R → py_round x < k.
Proof.
  intros Hx. pose proof (py_round_near x) as Hnear.
  apply Rabs_bound in Hnear. apply lt_IZR. lra.
Qed.

(** The time stamp is stored without loss: the two numbers written are
    the quotient and the remainder of the rounded clock by 100000, the
    remainder below 100000, and for a clock below 1677721599999 seconds
    the quotient is below 2^24: both are integers that a 32-bit float
    holds exactly, and the clock is recovered from them to the nearest
    second. *)
Theorem set_last_update_time_spec db now :
  opened db = true →
  ∃ a b,
    set_last_update_time db now =
      Some {| test_mode := test_mode db; opened := true;
              calls := calls db ++
                [Execute SQL_INSERT
                   [Int 0; Str "updated"; Int a; Int b; Int a; Int b]] |} ∧
    a * 100000 + b = py_round now ∧
    0 ≤ b < 100000 ∧
    (Rabs (now - IZR (a * 100000 + b)) <= 1 / 2)%R ∧
    ((0 <= now < 1677721599999)%R → 0 ≤ a < 2 ^ 24).
Proof.
  intros Hopen.
  exists (py_round now / 100000), (py_round now `mod` 100000).
  assert (Hsplit : py_round now / 100000 * 100000 + py_round now `mod` 100000
                   = py_round now).
  { rewrite (Z.mul_comm _ 100000). symmetry. by apply Z.div_mod. }
  split; [|split; [|split; [|split]]].
  - unfold set_last_update_time, insert. by rewrite Hopen.
  - done.
  - by apply Z.mod_pos_bound.
  - rewrite Hsplit. apply py_round_near.
  - intros [Hlo Hhi]. split.
    + apply Z.div_pos; [by apply py_round_nonneg|done].
    + apply Z.div_lt_upper_bound; [done|].
      apply py_round_lt.
      change (100000 * 2 ^ 24) with 1677721600000. lra.
Qed.

Lemma invoke_calls db m :
  opened db = true →
  ∃ e l v s,
    invoke db m =
    Some {| test_mode := test_mode db; opened := true;
            calls := calls db ++
                     [Execute SQL_INSERT [Int e; Str l; v; s; v; s]] |}.
Proof.
  intros Hopen. destruct m as [e l v s|now]; cbn.
  - unfold insert. rewrite Hopen. by exists e, l, v, s.
  - unfold set_last_update_time, insert. rewrite Hopen. by eexists _, _, _, _.
Qed.

Lemma invoke_all_calls db body :
  opened db = true →
  ∃ db' stmts,
    invoke_all db body = Some db' ∧
    opened db' = true ∧ test_mode db' = test_mode db ∧
    calls db' = calls db ++ stmts ∧
    length stmts = length body ∧
    Forall (λ c, ∃ e l v s,
              c = Execute SQL_INSERT [Int e; Str l; v; s; v; s]) stmts.
Proof.
  revert db. induction body as [|m body IH]; intros db Hopen.
  - exists db, []. by rewrite app_nil_r.
  - destruct (invoke_calls db m Hopen) as (e & l & v & s & Hm).
    cbn. rewrite Hm. cbn.
    destruct (IH {| test_mode := test_mode db; opened := true;
                    calls := calls db ++
                      [Execute SQL_INSERT [Int e; Str l; v; s; v; s]] |}
                eq_refl)
      as (db' & stmts & Hrun & Hopen' & Hmode & Hcalls & Hlen & Hall).
    exists db', (Execute SQL_INSERT [Int e; Str l; v; s; v; s] :: stmts).
    split_and!; [done..| | |].
    + rewrite Hcalls. cbn. by rewrite <- app_assoc.
    + cbn. by rewrite Hlen.
    + constructor; [by exists e, l, v, s|done].
Qed.

(** What a [with] block does on the connection: it connects and opens a
    cursor, executes one upsert per method call of the body, in order,
    closes the cursor, commits unless in test mode, and closes the
    connection; it does so also when the body raises, so what was
    executed before the exception is committed; in test mode it never
    commits. *)
Theorem with_database_calls test raises body :
  ∃ db stmts,
    with_database user password test body raises = Some (db, raises) ∧
    calls db =
      [Connect user password "epidata"; Cursor] ++ stmts ++
      [CursorClose;
       if test then Print "test mode - nowcasts not saved" else Commit;
       Close] ∧
    length stmts = length body ∧
    Forall (λ c, ∃ e l v s,
              c = Execute SQL_INSERT [Int e; Str l; v; s; v; s]) stmts ∧
    (Commit ∈ calls db ↔ test = false).
Proof.
  unfold with_database.
  destruct (invoke_all_calls (connect user password (new_instance test)) body
              eq_refl)
    as (db' & stmts & Hrun & Hopen & Hmode & Hcalls & Hlen & Hall).
  rewrite Hrun. cbn. unfold disconnect. rewrite Hopen. cbn.
  eexists _, stmts. split; [done|]. cbn. rewrite Hcalls, Hmode. cbn.
  split_and!; [done..|].
  rewrite !elem_of_cons, elem_of_app, !elem_of_cons, elem_of_nil.
  split.
  - intros [?|[?|[Hin|[?|[Hc|[?|[]]]]]]]; try done.
    + rewrite Forall_forall in Hall.
      by destruct (Hall _ Hin) as (? & ? & ? & ? & ?).
    + by destruct test.
  - intros ->. do 4 right. by left.
Qed.

End DatabaseMore.

(** ** The report [nowcast_info] *)

Section MainMore.

Context (region_list : list string).

Implicit Types (rows : list (Z * string * R * R)).

(** The rows of a table stored for a location. *)
Local Abbreviation rows_of loc rows :=
  (filter (λ row : Z * string * R * R, row.1.1.2 = loc) rows).

Lemma size_experiment_loop loc rows :
  (size (experiment_loop loc ∅ rows) ≤ length (rows_of loc rows))%nat.
Proof.
  induction rows as [|[[[w p] v] s] rows IH] using rev_ind; [done|].
  rewrite experiment_loop_snoc, filter_app, length_app.
  rewrite filter_cons, filter_nil. cbn [fst snd].
  destruct (decide (p = loc)) as [->|Hne]; cbn [length].
  - destruct (skipped loc w); [lia|].
    rewrite map_size_insert.
    destruct (experiment_loop loc ∅ rows !! w); cbn; lia.
  - cbn. lia.
Qed.

Lemma sum_rows_of (locs : list string) rows :
  NoDup locs →
  (sum_list ((λ l, length (rows_of l rows)) <$> locs) ≤ length rows)%nat.
Proof.
  intros Hnd. induction rows as [|[[[w p] v] s] rows IH]; cbn [length].
  - induction locs as [|l locs IHl]; [done|]. cbn.
    apply NoDup_cons in Hnd as [_ Hnd]. by apply IHl.
  - assert (Hstep :
      (sum_list ((λ l, length (rows_of l ((w, p, v, s) :: rows))) <$> locs)
       ≤ 1 + sum_list ((λ l, length (rows_of l rows)) <$> locs))%nat).
    { clear IH. induction locs as [|l locs IHl]; [cbn; lia|].
      apply NoDup_cons in Hnd as [Hl Hnd]. cbn [fmap list_fmap sum_list].
      rewrite filter_cons. cbn [fst snd].
      destruct (decide (p = l)) as [->|Hne]; cbn [length].
      - assert (sum_list
                  ((λ l0, length (rows_of l0 ((w, l, v, s) :: rows))) <$> locs)
                = sum_list ((λ l0, length (rows_of l0 rows)) <$> locs)) as ->.
        { f_equal. apply list_fmap_ext. intros i l0 Hl0.
          rewrite filter_cons. cbn [fst snd].
          rewrite decide_False; [done|]. intros <-.
          by apply list_elem_of_lookup_2 in Hl0. }
        unfold sum_list, Datatypes.id in *. lia.
      - specialize (IHl Hnd). unfold sum_list, Datatypes.id in *. lia. }
    lia.
Qed.

Lemma total_loop d rows (locs : list string) (t : nat) :
  nc d !! "vanilla"%string = Some rows →
  foldlM (λ (t : nat) l,
            x ← get_nowcast d l; mret (t + size x)%nat) t locs =
  Ok (t + sum_list ((λ l, size (experiment_loop l ∅ rows)) <$> locs))%nat.
Proof.
  intros Hrows. revert t. induction locs as [|l locs IH]; intros t.
  - cbn. f_equal. lia.
  - assert (get_nowcast d l = Ok (experiment_loop l ∅ rows)) as Hl
      by (unfold get_nowcast; by apply get_experiment_Ok).
    cbn [foldlM]. rewrite Hl.
    cbn [mbind res_bind mret res_ret].
    rewrite IH. f_equal. cbn. unfold Datatypes.id. lia.
Qed.

(** When there is a national nowcast, [nowcast_info] reports the size
    of the national series, its least and greatest week, and a total
    that counts the national series when "nat" is a listed location and
    never exceeds the number of stored rows when no location is listed
    twice. *)
Theorem nowcast_info_spec d rows n :
  nc d !! "vanilla"%string = Some rows →
  get_nowcast d "nat" = Ok n →
  n ≠ ∅ →
  ∃ first last t,
    nowcast_info region_list d =
      Ok (size n, first, last, t, length region_list) ∧
    (is_Some (n !! first) ∧ ∀ w, is_Some (n !! w) → first ≤ w) ∧
    (is_Some (n !! last) ∧ ∀ w, is_Some (n !! w) → w ≤ last) ∧
    ("nat"%string ∈ region_list → (size n ≤ t)%nat) ∧
    (NoDup region_list → (t ≤ length rows)%nat).
Proof.
  intros Hrows Hn Hne.
  assert (Hk : keys n ≠ []) by by rewrite keys_nil.
  destruct (py_min_is_Ok _ Hk) as [first Hfirst].
  destruct (py_max_is_Ok _ Hk) as [last Hlast].
  exists first, last,
    (sum_list ((λ l, size (experiment_loop l ∅ rows)) <$> region_list)).
  split_and!.
  - unfold nowcast_info. rewrite Hn. cbn [mbind res_bind].
    rewrite Hfirst, Hlast. cbn [mbind res_bind].
    by rewrite (total_loop d rows region_list 0 Hrows).
  - apply py_min_Ok in Hfirst as [Hin _]. by apply elem_of_keys.
  - intros w Hw. apply py_min_Ok in Hfirst as [_ Hall].
    rewrite Forall_forall in Hall. by apply Hall, elem_of_keys.
  - apply py_max_Ok in Hlast as [Hin _]. by apply elem_of_keys.
  - intros w Hw. apply py_max_Ok in Hlast as [_ Hall].
    rewrite Forall_forall in Hall. by apply Hall, elem_of_keys.
  - intros Hnat.
    unfold get_nowcast in Hn. rewrite (get_experiment_Ok _ _ _ _ Hrows) in Hn.
    injection Hn as <-.
    apply list_elem_of_split in Hnat as (l1 & l2 & ->).
    rewrite fmap_app, fmap_cons.
    clear. induction l1 as [|l l1 IH]; cbn; lia.
  - intros Hnd. etransitivity; [|by apply (sum_rows_of region_list rows)].
    clear. induction region_list as [|l locs IH]; [done|]. cbn.
    pose proof (size_experiment_loop l rows). lia.
Qed.

End MainMore.

(** * The further properties on concrete tables *)

(** ** The loader *)

Lemma load_row_length_witness :
  load_row int_digits float_digits ["201501"; "nat"; "1"]%string =
    Ok [Int 201501; Str "nat"; Float 1] ∧
  length [Int 201501; Str "nat"; Float 1] =
    length ["201501"; "nat"; "1"]%string.
Proof.
  split; [reflexivity|].
  apply (load_row_length int_digits float_digits). reflexivity.
Defined.


Lemma load_file_first_error_witness :
  (∀ r, r ∈ [["201501"; "nat"; "1"]]%string →
     ∃ row, load_row int_digits float_digits r = Ok row) ∧
  load_row int_digits float_digits ["x"; "nat"; "1"]%string
    = Raise ValueError ∧
  load_file int_digits float_digits
    [["201501"; "nat"; "1"]%string; ["x"; "nat"; "1"]%string; []]
    = Raise ValueError.
Proof.
  assert (H : ∀ r, r ∈ [["201501"; "nat"; "1"]]%string →
            ∃ row, load_row int_digits float_digits r = Ok row).
  { intros r Hin. apply list_elem_of_singleton in Hin as ->.
    eexists. reflexivity. }
  split; [exact H|]. split; [reflexivity|].
  apply (load_file_first_error int_digits float_digits
           [["201501"; "nat"; "1"]%string] ["x"; "nat"; "1"]%string [[]]);
    [exact H|].
  reflexivity.
Defined.

Lemma load_everything_spec_witness :
  load_everything int_digits float_digits
    [("fluview", [["201501"; "nat"; "1"]])]%string =
    Ok {["fluview"%string := [[Int 201501; Str "nat"; Float 1]]]} ∧
  ∀ key loaded,
    ({["fluview"%string := [[Int 201501; Str "nat"; Float 1]]]}
       : gmap string (list (list cell))) !! key = Some loaded →
    ∃ rows, (key, rows) ∈ [("fluview", [["201501"; "nat"; "1"]])]%string ∧
            load_file int_digits float_digits rows = Ok loaded.
Proof.
  split; [reflexivity|].
  apply (load_everything_spec int_digits float_digits
           [("fluview", [["201501"; "nat"; "1"]])]%string).
  reflexivity.
Defined.

(** ** The extractors *)

Lemma get_preliminary_truth_other_lag_witness :
  1 ≠ 2 ∧
  Forall (λ row : Z * string * R, row.1.2 = "nat_" +:+ pretty 2)
    [(201501, "nat_2"%string, 1%R)] ∧
  get_preliminary_truth (Some [(201501, "nat_2"%string, 1%R)]) 1 = Ok ∅.
Proof.
  assert (H1 : 1 ≠ 2) by lia.
  assert (H2 : Forall (λ row : Z * string * R,
                         row.1.2 = "nat_" +:+ pretty 2)
                 [(201501, "nat_2"%string, 1%R)]).
  { constructor; [reflexivity|constructor]. }
  split; [exact H1|]. split; [exact H2|].
  exact (get_preliminary_truth_other_lag _ 1 2 H1 H2).
Defined.

(** ** The baselines *)

Lemma ex_data_weeks_decrease truth :
  get_truth ex_data "nat" = Ok truth →
  ∀ w, is_Some (truth !! w) → add_epiweeks52 w (-1) < w.
Proof.
  intros [= <-] w Hw. apply elem_of_keys in Hw.
  repeat (apply elem_of_cons in Hw as [->|Hw]; [reflexivity|]).
  by apply elem_of_nil in Hw.
Qed.

Lemma get_naive_nowcast_earliest_witness :
  ∃ truth, get_truth ex_data "nat" = Ok truth ∧
    (∀ w, is_Some (truth !! w) → add_epiweeks52 w (-1) < w) ∧
    ∃ naive, get_naive_nowcast add_epiweeks52 ex_data "nat" = Ok naive ∧
      (∀ w, is_Some (truth !! w) →
         (∀ w', is_Some (truth !! w') → w ≤ w') → naive !! w = None) ∧
      (truth ≠ ∅ → (size naive < size truth)%nat).
Proof.
  eexists. split; [reflexivity|].
  split; [apply ex_data_weeks_decrease; reflexivity|].
  apply (get_naive_nowcast_earliest add_epiweeks52 ex_data "nat");
    [reflexivity|].
  apply ex_data_weeks_decrease; reflexivity.
Defined.



(** ** Metrics *)



Lemma ex_truth_elsewhere w :
  w ∈ dom ex_truth ∩ dom ex_estimate →
  ex_truth !! w = <[200 := 9%R]> ex_truth !! w ∧
  ex_estimate !! w = ex_estimate !! w.
Proof.
  intros Hw. split; [|done]. rewrite lookup_insert_ne; [done|].
  intros <-. apply elem_of_intersection in Hw as [Hw _].
  apply elem_of_dom in Hw as [x Hx]. discriminate Hx.
Qed.

Lemma get_metrics_local_witness :
  dom ex_truth ∩ dom ex_estimate =
    dom (<[200 := 9%R]> ex_truth) ∩ dom ex_estimate ∧
  (∀ w, w ∈ dom ex_truth ∩ dom ex_estimate →
     ex_truth !! w = <[200 := 9%R]> ex_truth !! w ∧
     ex_estimate !! w = ex_estimate !! w) ∧
  get_metrics ex_truth ex_estimate None =
    get_metrics (<[200 := 9%R]> ex_truth) ex_estimate None.
Proof.
  split; [reflexivity|]. split; [exact ex_truth_elsewhere|].
  apply get_metrics_local; [reflexivity|exact ex_truth_elsewhere].
Defined.



Lemma get_metrics_baseline_disjoint_witness :
  dom ex_truth ∩ (dom ex_estimate ∩ dom ({[200 := 1%R]} : gmap Z R)) = ∅ ∧
  mase (get_metrics ex_truth ex_estimate (Some {[200 := 1%R]})) = Some NaN ∧
  rmsse (get_metrics ex_truth ex_estimate (Some {[200 := 1%R]})) = Some NaN.
Proof.
  split; [reflexivity|].
  apply get_metrics_baseline_disjoint. reflexivity.
Defined.

(** ** The sensor coverage matrix *)

Lemma heat_ex_nonneg s w v :
  s ∈ ["A"; "B"]%string → series_of heat_ex "nat" s !! w = Some v →
  (0 <= v)%R.
Proof.
  intros Hin Hv. apply elem_of_map_to_list in Hv.
  apply elem_of_cons in Hin as [->|Hin].
  { repeat (apply elem_of_cons in Hv as [[= -> ->]|Hv]; [lra|]).
    by apply elem_of_nil in Hv. }
  apply elem_of_cons in Hin as [->|Hin].
  { repeat (apply elem_of_cons in Hv as [[= -> ->]|Hv]; [lra|]).
    by apply elem_of_nil in Hv. }
  by apply elem_of_nil in Hin.
Qed.

Lemma get_heatmap_data_sentinel_witness :
  ["A"; "B"]%string ≠ [] ∧
  (∀ s, s ∈ ["A"; "B"]%string →
     get_sensor heat_ex s "nat" = Ok (series_of heat_ex "nat" s)) ∧
  (∀ s, s ∈ ["A"; "B"]%string → series_of heat_ex "nat" s ≠ ∅) ∧
  (∀ s w v, s ∈ ["A"; "B"]%string →
     series_of heat_ex "nat" s !! w = Some v → (0 <= v)%R) ∧
  ∃ data weeks,
    get_heatmap_data ["A"; "B"]%string range_epiweeks52 heat_ex =
      Ok (data, ["A"; "B"]%string, weeks) ∧
    ∀ i j s w row x,
      ["A"; "B"]%string !! i = Some s → weeks !! j = Some w →
      data !! i = Some row → row !! j = Some x →
      ((x < 0)%R ↔ series_of heat_ex "nat" s !! w = None).
Proof.
  split; [done|]. split; [exact heat_ex_sensors|].
  split; [exact heat_ex_nonempty|]. split; [exact heat_ex_nonneg|].
  apply (get_heatmap_data_sentinel ["A"; "B"]%string range_epiweeks52 heat_ex).
  - done.
  - exact heat_ex_sensors.
  - exact heat_ex_nonempty.
  - exact heat_ex_nonneg.
Defined.

(** ** The database wrapper *)

Lemma set_last_update_time_spec_witness :
  Database.opened
    (Database.connect "u" "p" (Database.new_instance false)) = true ∧
  ∃ a b,
    Database.set_last_update_time
      (Database.connect "u" "p" (Database.new_instance false)) 1700000000
    = Some {| Database.test_mode := false; Database.opened := true;
              Database.calls :=
                [Database.Connect "u" "p" "epidata"; Database.Cursor;
                 Database.Execute Database.SQL_INSERT
                   [Int 0; Str "updated"; Int a; Int b; Int a; Int b]] |} ∧
    a * 100000 + b = Database.py_round 1700000000 ∧
    0 ≤ b < 100000.
Proof.
  split; [reflexivity|].
  destruct (set_last_update_time_spec
              (Database.connect "u" "p" (Database.new_instance false))
              1700000000 eq_refl)
    as (a & b & Hrun & Hsplit & Hb & _).
  exists a, b. split; [exact Hrun|]. split; [exact Hsplit|exact Hb].
Defined.

(** ** The report *)

Lemma ex_nat_nowcast_nonempty :
  experiment_loop "nat" ∅ ex_nc ≠ ∅.
Proof. intros H. apply (f_equal size) in H. discriminate H. Qed.

Lemma nowcast_info_spec_witness :
  nc ex_data !! "vanilla"%string = Some ex_nc ∧
  get_nowcast ex_data "nat" = Ok (experiment_loop "nat" ∅ ex_nc) ∧
  experiment_loop "nat" ∅ ex_nc ≠ ∅ ∧
  ∃ first last t,
    nowcast_info ["nat"; "vi"]%string ex_data =
      Ok (size (experiment_loop "nat" ∅ ex_nc), first, last, t, 2%nat) ∧
    (is_Some (experiment_loop "nat" ∅ ex_nc !! first) ∧
     ∀ w, is_Some (experiment_loop "nat" ∅ ex_nc !! w) → first ≤ w) ∧
    (is_Some (experiment_loop "nat" ∅ ex_nc !! last) ∧
     ∀ w, is_Some (experiment_loop "nat" ∅ ex_nc !! w) → w ≤ last) ∧
    ("nat"%string ∈ ["nat"; "vi"]%string →
     (size (experiment_loop "nat" ∅ ex_nc) ≤ t)%nat) ∧
    (NoDup ["nat"; "vi"]%string → (t ≤ length ex_nc)%nat).
Proof.
  split; [reflexivity|]. split; [reflexivity|].
  split; [exact ex_nat_nowcast_nonempty|].
  exact (nowcast_info_spec ["nat"; "vi"]%string ex_data ex_nc _
           eq_refl eq_refl ex_nat_nowcast_nonempty).
Defined.
